(** * node-rsvg: the [Rsvg] facade of [index.js] over the native binding

    The JavaScript class [Rsvg] wraps a handle of the native librsvg
    binding ([bindings('rsvg')]).  The binding is not JavaScript; it is
    taken here as a parameter, the record [Engine], whose operations carry
    the handle's state explicitly.  Every call that the facade makes on the
    binding is recorded in a trace of [event]s, so that statements such as
    "no parse is attempted" or "the handle is closed once" can be read off
    the run of a method.

    Conventions of the embedding:
    - JavaScript values that callers pass in are the inductive [value];
      a number is the rational it denotes ([Q]; NaN, the infinities and
      the overflow to them are left out), [is_double] singles out the
      values an IEEE-754 double can take and [round_double] is the
      rounding to the nearest of them, which every conversion and
      product of the program goes through; strings are [string]s of
      8-bit characters (the text in UTF-8); a [Buffer] is a list of
      bytes; an object is the association list of its properties, the
      first binding of a key being its value, and a property may be a
      function, given by what a call of it yields;
    - [String.prototype.toLowerCase] is a table of the runtime that the
      model does not carry: it comes with the [Engine] as the function
      [toLowerCase], of which only one law is used;
    - a method of the class is a function into the monad [M]: it takes the
      state of [this._handle] and returns an [outcome], the new state of
      the handle and the engine calls made;
    - [render] calls itself without a bound; the model takes the number of
      nested activations it may use as [fuel] and answers [Diverge] when
      that is exhausted. *)

From Stdlib Require Import ZArith QArith Qabs Qround Qpower List String Ascii Bool Lia Lqa.
From Stdlib Require Import Strings.Byte.
Import ListNotations.
Open Scope string_scope.
Open Scope list_scope.
Open Scope Z_scope.

Set Implicit Arguments.
Set Warnings "-register-all".

(* ===================================================================== *)
(** ** Errors and outcomes *)
(* ===================================================================== *)

(** What a [throw] carries.  [TypeError] and [Error] are the two classes
    [index.js] constructs itself; [EngineError] is anything the binding
    throws, tagged with the fault it reports. *)
Inductive fault : Type :=
| ParseError
| SubelementNotFound
| UnsupportedFormat
| OtherFault.

Inductive error : Type :=
| TypeError (msg : string)
| Error (msg : string)
| EngineError (f : fault) (msg : string).

(** [error.message] *)
Definition message (e : error) : string :=
  match e with
  | TypeError m | Error m | EngineError _ m => m
  end.

(** What a call on the binding yields: a result or a thrown error. *)
Inductive reply (A : Type) : Type :=
| Ok (a : A)
| Fail (e : error).

Arguments Ok {A} a.
Arguments Fail {A} e.

(** What a method of the facade yields; [Diverge] is the model's answer
    when the nested calls of [render] exceed the fuel. *)
Inductive outcome (A : Type) : Type :=
| Ret (a : A)
| Throw (e : error)
| Diverge.

Arguments Ret {A} a.
Arguments Throw {A} e.
Arguments Diverge {A}.

Definition lift {A : Type} (r : reply A) : outcome A :=
  match r with
  | Ok a => Ret a
  | Fail e => Throw e
  end.

(* ===================================================================== *)
(** ** JavaScript values *)
(* ===================================================================== *)

(** [VStr] is a primitive string and [VStringObj s] the String object
    [new String(s)]; [VFun r] is a function, [r] being what a call of it
    as a method without arguments returns or throws. *)
Inductive value : Type :=
| VUndefined
| VNull
| VBool (b : bool)
| VNum (q : Q)
| VStr (s : string)
| VStringObj (s : string)
| VBuffer (bytes : list byte)
| VFun (call : reply value)
| VObj (props : list (string * value)).

(** [typeof v] *)
Definition typeof (v : value) : string :=
  match v with
  | VUndefined => "undefined"
  | VNull => "object"
  | VBool _ => "boolean"
  | VNum _ => "number"
  | VStr _ => "string"
  | VStringObj _ => "object"
  | VBuffer _ => "object"
  | VFun _ => "function"
  | VObj _ => "object"
  end.

(** ToBoolean: what [v ? a : b] and [v || d] test. *)
Definition truthy (v : value) : bool :=
  match v with
  | VUndefined | VNull => false
  | VBool b => b
  | VNum q => negb (Qeq_bool q 0)
  | VStr s => negb (String.eqb s "")
  | VStringObj _ | VBuffer _ | VFun _ | VObj _ => true
  end.

(** [Buffer.isBuffer(v)] *)
Definition isBuffer (v : value) : bool :=
  match v with
  | VBuffer _ => true
  | _ => false
  end.

(** [Buffer.from(s)] for a string: its UTF-8 bytes. *)
Definition Buffer_from (s : string) : list byte := list_byte_of_string s.

Fixpoint assoc (k : string) (props : list (string * value)) : option value :=
  match props with
  | [] => None
  | (k', v) :: rest => if String.eqb k k' then Some v else assoc k rest
  end.

(** Property read [o.k] for the keys the program reads ([width],
    [height], [format], [id], [toLowerCase]) on a value that is not a
    string: a property of an object, [undefined] on anything else that
    can be dereferenced. *)
Definition get (o : value) (k : string) : value :=
  match o with
  | VObj props =>
      match assoc k props with
      | Some v => v
      | None => VUndefined
      end
  | _ => VUndefined
  end.

(** [arguments[i]], [undefined] past the end. *)
Definition arg (i : nat) (args : list value) : value := nth i args VUndefined.

(** [options || {}] *)
Definition or_empty (options : value) : value :=
  if truthy options then options else VObj [].

(** The test [arguments.length > 1 || typeof (options) !== 'object'] by
    which [render] tells the positional call shape from an options
    object. *)
Definition positional (args : list value) : bool :=
  (1 <? List.length args)%nat
  || negb (String.eqb (typeof (arg 0 args)) "object").

(* ===================================================================== *)
(** ** Results of the engine *)
(* ===================================================================== *)

(** [img.data]: a [Buffer] for raw, png and pdf, a string for svg. *)
Inductive payload : Type :=
| Bytes (b : list byte)
| Text (s : string).

(** [img.data.length] *)
Definition payload_length (p : payload) : Z :=
  match p with
  | Bytes b => Z.of_nat (List.length b)
  | Text s => Z.of_nat (String.length s)
  end.

Record RenderResult : Type := mkRenderResult {
  data : payload;
  format : string;
  img_width : Z;
  img_height : Z;
  pixelFormat : option string
}.

Record BoundingBox : Type := mkBox {
  box_x : Q;
  box_y : Q;
  box_width : Q;
  box_height : Q
}.

(* ===================================================================== *)
(** ** The native binding *)
(* ===================================================================== *)

(** One call on the binding, as it appears in the trace. *)
Inductive event : Type :=
| EParse (b : list byte)
| EClose
| EGetBaseURI
| ESetBaseURI (v : value)
| EGetDPIX
| ESetDPIX (v : value)
| EGetDPIY
| ESetDPIY (v : value)
| EGetWidth
| EGetHeight
| EGetDPI
| ESetDPI (vx vy : value)
| EDimensions (id : value)
| EHasElement (id : value)
| EAutocrop
| ERender (w h f id : value).

(** What [index.js] runs on and does not define.  [binding.Rsvg]: the
    constructor and the methods of a handle; a method takes the state of
    the handle and returns what the call yields together with the state
    it leaves; [getWidth] and [getHeight] read the intrinsic size and do
    nothing else.  [toLowerCase]: the case mapping of the runtime's
    strings, which maps the empty string, and no other, to the empty
    string. *)
Record Engine : Type := mkEngine {
  toLowerCase : string -> string;
  toLowerCase_empty : forall s : string, toLowerCase s = "" <-> s = "";
  handle : Type;
  binding_Rsvg : list byte -> reply handle;
  handle_close : handle -> reply unit * handle;
  handle_getBaseURI : handle -> reply value * handle;
  handle_setBaseURI : value -> handle -> reply value * handle;
  handle_getDPIX : handle -> reply value * handle;
  handle_setDPIX : value -> handle -> reply value * handle;
  handle_getDPIY : handle -> reply value * handle;
  handle_setDPIY : value -> handle -> reply value * handle;
  handle_getWidth : handle -> Z;
  handle_getHeight : handle -> Z;
  handle_getDPI : handle -> reply value * handle;
  handle_setDPI : value -> value -> handle -> reply value * handle;
  handle_dimensions : value -> handle -> reply value * handle;
  handle_hasElement : value -> handle -> reply value * handle;
  handle_autocrop : handle -> reply BoundingBox * handle;
  handle_render : value -> value -> value -> value -> handle ->
                  reply RenderResult * handle
}.

(* ===================================================================== *)
(** ** The monad of facade methods *)
(* ===================================================================== *)

Section Facade.

Variable E : Engine.

(** A computation on [this._handle]: outcome, state of the handle
    afterwards, calls made on the binding in order. *)
Definition M (A : Type) : Type :=
  handle E -> outcome A * handle E * list event.

Definition ret {A : Type} (a : A) : M A := fun h => (Ret a, h, []).

Definition throw {A : Type} (e : error) : M A := fun h => (Throw e, h, []).

Definition diverge {A : Type} : M A := fun h => (Diverge, h, []).

Definition bind {A B : Type} (m : M A) (k : A -> M B) : M B :=
  fun h =>
    match m h with
    | (Ret a, h1, t1) =>
        match k a h1 with
        | (r, h2, t2) => (r, h2, t1 ++ t2)
        end
    | (Throw e, h1, t1) => (Throw e, h1, t1)
    | (Diverge, h1, t1) => (Diverge, h1, t1)
    end.

(** One call [this._handle.m(...)], recorded as [ev]. *)
Definition call {A : Type} (ev : event)
    (op : handle E -> reply A * handle E) : M A :=
  fun h => match op h with (r, h1) => (lift r, h1, [ev]) end.

(** A getter of the binding that only reads. *)
Definition peek {A : Type} (ev : event) (f : handle E -> A) : M A :=
  fun h => (Ret (f h), h, [ev]).

End Facade.

Arguments ret {E A} a.
Arguments throw {E A} e.
Arguments diverge {E A}.
Arguments bind {E A B} m k.
Arguments call {E A} ev op.
Arguments peek {E A} ev f.

Notation "x <- m ;; k" := (bind m (fun x => k))
  (at level 61, m at next level, right associativity).

(** Projections of a run. *)
Definition result {H A : Type} (r : outcome A * H * list event) : outcome A :=
  fst (fst r).
Definition final {H A : Type} (r : outcome A * H * list event) : H :=
  snd (fst r).
Definition trace {H A : Type} (r : outcome A * H * list event) : list event :=
  snd r.

(* ===================================================================== *)
(** ** Numbers: IEEE-754 doubles *)
(* ===================================================================== *)

Definition pow2 (e : Z) : Q := (2 ^ e)%Q.

(** The finite doubles: [m * 2^e] with a significand of 53 bits and an
    exponent not below that of the subnormal numbers. *)
Definition is_double (q : Q) : Prop :=
  exists m e : Z,
    Z.abs m < 2 ^ 53 /\ -1074 <= e /\ (q == inject_Z m * pow2 e)%Q.

(** For [q > 0], the [k] with [2^k <= q < 2^(k+1)]. *)
Definition floor_log2 (q : Q) : Z :=
  let k0 := Z.log2 (Qnum q) - Z.log2 (Zpos (Qden q)) in
  if Qle_bool (pow2 k0) q then k0 else k0 - 1.

(** The nearest integer, the even one of two that are equally near. *)
Definition half_even (q : Q) : Z :=
  let f := Qfloor q in
  match Qcompare (q - inject_Z f) (1 # 2) with
  | Lt => f
  | Gt => f + 1
  | Eq => if Z.even f then f else f + 1
  end.

(** The exponent of the last place of the doubles of the magnitude of
    [q]: 52 below that of [q], and not below -1074. *)
Definition grid (q : Q) : Z := Z.max (floor_log2 (Qabs q) - 52) (-1074).

(** The Number value for [q]: the double nearest to it, the one with the
    even significand of two that are equally near. *)
Definition round_double (q : Q) : Q :=
  if Qeq_bool q 0 then 0%Q
  else (inject_Z (half_even (q / pow2 (grid q))) * pow2 (grid q))%Q.

(* ===================================================================== *)
(** ** Numbers as text: [toFixed] and the conversion back *)
(* ===================================================================== *)

(** The String that [Number.prototype.toFixed] returns, kept structured.
    [Fixed neg n f] is the sign followed by the decimal digits of [n] with
    a point before the last [f] of them; [Shortest neg ax] is the sign
    followed by [ToString(ax)], the shortest decimal that converts back
    to the double [ax]. *)
Inductive numeric_string : Type :=
| Fixed (neg : bool) (n : Z) (f : nat)
| Shortest (neg : bool) (ax : Q).

Definition pow10 (f : nat) : Q := inject_Z (10 ^ Z.of_nat f).

(** The integer [n] for which [n - q] is closest to zero, the larger one
    if there are two. *)
Definition nearest_integer (q : Q) : Z := Qfloor (q + (1 # 2)).

(** [x.toFixed(f)] (ECMA-262, Number.prototype.toFixed) on a finite
    number: the sign is split off, a magnitude of 10^21 or more is spelled
    by [ToString], anything smaller by the nearest integer to
    [x * 10^f]. *)
Definition toFixed (f : nat) (xq : Q) : numeric_string :=
  let neg := negb (Qle_bool 0 xq) in
  let ax := if neg then (- xq)%Q else xq in
  if Qle_bool (inject_Z (10 ^ 21)) ax
  then Shortest neg ax
  else Fixed neg (nearest_integer (ax * pow10 f)) f.

(** The decimal fraction that the digits of [Fixed neg n f] spell. *)
Definition decimal (neg : bool) (n : Z) (f : nat) : Q :=
  let m := (inject_Z n / pow10 f)%Q in
  if neg then (- m)%Q else m.

(** [ToNumber(s)]: the double nearest to the decimal fraction that the
    digits spell; for the output of [ToString], the double it came
    from. *)
Definition ToNumber (s : numeric_string) : Q :=
  match s with
  | Fixed neg n f => round_double (decimal neg n f)
  | Shortest neg ax => if neg then (- ax)%Q else ax
  end.

(** [s * k] with a string on the left: the product of the Number of [s]
    and [k], rounded as every product of doubles is. *)
Definition times (s : numeric_string) (k : Q) : Q :=
  round_double (ToNumber s * k).

(* ===================================================================== *)
(** ** The class [Rsvg] *)
(* ===================================================================== *)

Section Rsvg.

Variable E : Engine.

(** [util.inspect] of Node, on the object literal [toString] builds. *)
Variable inspect : list (string * value) -> string.

(** [new Rsvg(buffer)]: the state of [this._handle] of the new object, or
    what the constructor throws, and the calls made on the binding. *)
Definition constructor (buffer : value) : outcome (handle E) * list event :=
  let buffer :=
    match buffer with
    | VStr s => VBuffer (Buffer_from s)      (* typeof buffer === 'string' *)
    | _ => buffer
    end in
  match buffer with
  | VBuffer b =>
      match binding_Rsvg E b with
      | Ok h =>
          match handle_close E h with
          | (Ok _, h1) => (Ret h1, [EParse b; EClose])
          | (Fail error, _) =>
              (Throw (Error ("Rsvg load failure: " ++ message error)%string),
               [EParse b; EClose])
          end
      | Fail error =>
          (Throw (Error ("Rsvg load failure: " ++ message error)%string),
           [EParse b])
      end
  | _ =>                                     (* !Buffer.isBuffer(buffer) *)
      (Throw (TypeError "buffer should be a Buffer instance or a string"), [])
  end.

Definition baseURI : M E value :=
  call EGetBaseURI (handle_getBaseURI E).

Definition set_baseURI (v : value) : M E unit :=
  _ <- call (ESetBaseURI v) (handle_setBaseURI E v) ;; ret tt.

Definition dpiX : M E value :=
  call EGetDPIX (handle_getDPIX E).

Definition set_dpiX (v : value) : M E unit :=
  _ <- call (ESetDPIX v) (handle_setDPIX E v) ;; ret tt.

Definition dpiY : M E value :=
  call EGetDPIY (handle_getDPIY E).

Definition set_dpiY (v : value) : M E unit :=
  _ <- call (ESetDPIY v) (handle_setDPIY E v) ;; ret tt.

Definition width : M E Z :=
  peek EGetWidth (handle_getWidth E).

Definition height : M E Z :=
  peek EGetHeight (handle_getHeight E).

Definition getDPI : M E value :=
  call EGetDPI (handle_getDPI E).

Definition setDPI (vx vy : value) : M E unit :=
  _ <- call (ESetDPI vx vy) (handle_setDPI E vx vy) ;; ret tt.

Definition dimensions (id : value) : M E value :=
  call (EDimensions id) (handle_dimensions E id).

Definition hasElement (id : value) : M E value :=
  call (EHasElement id) (handle_hasElement E id).

Definition autocrop : M E BoundingBox :=
  area <- call EAutocrop (handle_autocrop E) ;;
  let area := mkBox (times (toFixed 3 (box_x area)) 1)
                    (box_y area) (box_width area) (box_height area) in
  let area := mkBox (box_x area)
                    (times (toFixed 3 (box_y area)) 1)
                    (box_width area) (box_height area) in
  let area := mkBox (box_x area) (box_y area)
                    (times (toFixed 3 (box_width area)) 1)
                    (box_height area) in
  let area := mkBox (box_x area) (box_y area) (box_width area)
                    (times (toFixed 3 (box_height area)) 1) in
  ret area.

(** The call [this._handle.render(width, height, format, id)]. *)
Definition native_render (width height format id : value) : M E RenderResult :=
  call (ERender width height format id)
       (handle_render E width height format id).

(** [format.toLowerCase()]: the case mapping on a string or a String
    object, the object's own method on an object that has one, a
    TypeError on every other value that can be dereferenced. *)
Definition call_toLowerCase (format : value) : reply value :=
  match format with
  | VStr s | VStringObj s => Ok (VStr (toLowerCase E s))
  | VObj _ =>
      match get format "toLowerCase" with
      | VFun call => call
      | _ => Fail (TypeError "format.toLowerCase is not a function")
      end
  | _ => Fail (TypeError "format.toLowerCase is not a function")
  end.

(** [_renderArgs(width, height, format, id)], given [arguments]. *)
Definition _renderArgs (args : list value) : M E RenderResult :=
  let width := arg 0 args in
  let height := arg 1 args in
  let format := arg 2 args in
  let id := arg 3 args in
  if truthy format then
    match call_toLowerCase format with
    | Ok lowered => native_render width height lowered id
    | Fail error => throw error
    end
  else native_render width height VNull id.

(** [render(options)], given [arguments]. *)
Fixpoint render (fuel : nat) (args : list value) : M E RenderResult :=
  match fuel with
  | O => diverge
  | S fuel' =>
      let options := arg 0 args in
      if positional args
      then _renderArgs args
      else
        let options := or_empty options in
        img <- native_render (get options "width") (get options "height")
                             (get options "format") (get options "id") ;;
        w <- width ;;
        h <- height ;;
        if (0 <? w + h) && (payload_length (data img) =? 0)
        then render fuel' [options]
        else ret img
  end.

Definition renderRaw (fuel : nat) (width height id : value) : M E RenderResult :=
  render fuel [VObj [("format", VStr "raw"); ("width", width);
                     ("height", height); ("element", id)]].

Definition renderPNG (fuel : nat) (width height id : value) : M E RenderResult :=
  render fuel [VObj [("format", VStr "png"); ("width", width);
                     ("height", height); ("element", id)]].

Definition renderPDF (fuel : nat) (width height id : value) : M E RenderResult :=
  render fuel [VObj [("format", VStr "pdf"); ("width", width);
                     ("height", height); ("element", id)]].

Definition renderSVG (fuel : nat) (width height id : value) : M E RenderResult :=
  render fuel [VObj [("format", VStr "svg"); ("width", width);
                     ("height", height); ("element", id)]].

(** [s.slice(1)] *)
Definition slice1 (s : string) : string :=
  match s with
  | EmptyString => EmptyString
  | String _ rest => rest
  end.

Definition toString : M E string :=
  w <- width ;;
  h <- height ;;
  let data := [("width", VNum (inject_Z w)); ("height", VNum (inject_Z h))] in
  u <- baseURI ;;
  data <- (if truthy u
           then u' <- baseURI ;; ret (data ++ [("baseURI", u')])
           else ret data) ;;
  ret ("{ [Rsvg]" ++ slice1 (inspect data))%string.

End Rsvg.

(* ===================================================================== *)
(** ** The life of one object *)
(* ===================================================================== *)

(** A use of a constructed object by its caller: a property read or
    write, or a method call with its arguments. *)
Inductive method : Type :=
| Get_baseURI
| Set_baseURI (v : value)
| Get_dpiX
| Set_dpiX (v : value)
| Get_dpiY
| Set_dpiY (v : value)
| Get_width
| Get_height
| Call_getDPI
| Call_setDPI (vx vy : value)
| Call_dimensions (id : value)
| Call_hasElement (id : value)
| Call_autocrop
| Call_render (args : list value)
| Call_renderRaw (w h id : value)
| Call_renderPNG (w h id : value)
| Call_renderPDF (w h id : value)
| Call_renderSVG (w h id : value)
| Call_toString
| Call__renderArgs (args : list value).

Section Life.

Variable E : Engine.
Variable inspect : list (string * value) -> string.

(** Run a computation for its effect on the handle. *)
Definition effect {A : Type} (m : M E A) (h : handle E) : handle E * list event :=
  (final (m h), trace (m h)).

Definition invoke (fuel : nat) (m : method) : handle E -> handle E * list event :=
  match m with
  | Get_baseURI => effect (baseURI E)
  | Set_baseURI v => effect (set_baseURI E v)
  | Get_dpiX => effect (dpiX E)
  | Set_dpiX v => effect (set_dpiX E v)
  | Get_dpiY => effect (dpiY E)
  | Set_dpiY v => effect (set_dpiY E v)
  | Get_width => effect (width E)
  | Get_height => effect (height E)
  | Call_getDPI => effect (getDPI E)
  | Call_setDPI vx vy => effect (setDPI E vx vy)
  | Call_dimensions id => effect (dimensions E id)
  | Call_hasElement id => effect (hasElement E id)
  | Call_autocrop => effect (autocrop E)
  | Call_render args => effect (render E fuel args)
  | Call_renderRaw w h id => effect (renderRaw E fuel w h id)
  | Call_renderPNG w h id => effect (renderPNG E fuel w h id)
  | Call_renderPDF w h id => effect (renderPDF E fuel w h id)
  | Call_renderSVG w h id => effect (renderSVG E fuel w h id)
  | Call_toString => effect (toString E inspect)
  | Call__renderArgs args => effect (_renderArgs E args)
  end.

(** The uses of an object one after the other, whatever each of them
    returns or throws. *)
Fixpoint session (fuel : nat) (ms : list method) (h : handle E) : list event :=
  match ms with
  | [] => []
  | m :: rest =>
      match invoke fuel m h with
      | (h1, t) => t ++ session fuel rest h1
      end
  end.

(** [new Rsvg(buffer)] followed by the uses [ms] of the object, if the
    constructor returned one. *)
Definition lifetime (fuel : nat) (buffer : value) (ms : list method) : list event :=
  match constructor E buffer with
  | (Ret h, t) => t ++ session fuel ms h
  | (_, t) => t
  end.

End Life.

Definition is_close (ev : event) : bool :=
  match ev with
  | EClose => true
  | _ => false
  end.

Definition is_parse (ev : event) : bool :=
  match ev with
  | EParse _ => true
  | _ => false
  end.

Definition is_render (ev : event) : bool :=
  match ev with
  | ERender _ _ _ _ => true
  | _ => false
  end.

(** How many events of a trace satisfy [p]. *)
Definition count (p : event -> bool) (t : list event) : nat :=
  List.length (filter p t).

(* ===================================================================== *)
(** ** What the specification says of the engine *)
(* ===================================================================== *)

(** The format names of the documentation of [render]: the high-level
    formats and the pixel formats of raw images. *)
Definition format_names : list string :=
  ["png"; "pdf"; "svg"; "raw";
   "argb32"; "rgb24"; "a8"; "a1"; "rgb16_565"; "rgb30"].

Definition recognized (s : string) : bool :=
  existsb (String.eqb s) format_names.

(** Modelled from the spec: the matching of the format argument inside the
    native [render] of the binding, which is not part of [index.js].  The
    specification says that a format string outside the enumerated set
    fails with [UnsupportedFormat]. *)
Definition rejects_unknown_formats (E : Engine) : Prop :=
  forall (w h id : value) (s : string) (hd : handle E),
    recognized s = false ->
    exists msg, fst (handle_render E w h (VStr s) id hd)
                = Fail (EngineError UnsupportedFormat msg).

(** Modelled from the spec: the intrinsic size is fixed when the document
    is loaded; a render leaves it as it was. *)
Definition render_keeps_size (E : Engine) : Prop :=
  forall (w h f id : value) (hd : handle E),
    let hd1 := snd (handle_render E w h f id hd) in
    handle_getWidth E hd1 = handle_getWidth E hd /\
    handle_getHeight E hd1 = handle_getHeight E hd.

(** A document without extent. *)
Definition degenerate (E : Engine) (hd : handle E) : Prop :=
  handle_getWidth E hd + handle_getHeight E hd = 0.

(* ===================================================================== *)
(** ** A small engine to run the facade on *)
(* ===================================================================== *)

(** An engine simple enough to compute with.  A document is a non-empty
    byte sequence; it is as wide and as high as it has bytes after the
    first, and each leading '!' stands for one render that comes back with
    an empty buffer before the engine recovers.  Its case mapping is that
    of the ASCII letters, which is what the runtime's does to the strings
    of the runs below. *)
Module Toy.

Definition lower_ascii (c : ascii) : ascii :=
  let n := nat_of_ascii c in
  if ((65 <=? n) && (n <=? 90))%nat then ascii_of_nat (n + 32) else c.

(** The case mapping on the ASCII letters. *)
Fixpoint fold (s : string) : string :=
  match s with
  | EmptyString => EmptyString
  | String c rest => String (lower_ascii c) (fold rest)
  end.

Definition fold_empty (s : string) : fold s = "" <-> s = "".
Proof.
  destruct s; split; intro H; try reflexivity; discriminate H.
Defined.

Record doc : Type := mkDoc {
  extent : Z;
  faults : nat;
  uri : value;
  dpi : value;
  loading : bool
}.

Fixpoint bangs (b : list byte) : nat :=
  match b with
  | x21 :: rest => S (bangs rest)
  | _ => O
  end.

Definition open (b : list byte) : reply doc :=
  match b with
  | [] => Fail (EngineError ParseError "no data")
  | _ :: rest =>
      Ok (mkDoc (Z.of_nat (List.length rest)) (bangs b) VNull (VNum 90) true)
  end.

Definition shut (d : doc) : reply unit * doc :=
  (Ok tt, mkDoc (extent d) (faults d) (uri d) (dpi d) false).

Definition with_uri (v : value) (d : doc) : reply value * doc :=
  (Ok VUndefined, mkDoc (extent d) (faults d) v (dpi d) (loading d)).

Definition with_dpi (v : value) (d : doc) : reply value * doc :=
  (Ok VUndefined, mkDoc (extent d) (faults d) (uri d) v (loading d)).

Definition box_of (d : doc) : value :=
  VObj [("x", VNum 0); ("y", VNum 0);
        ("width", VNum (inject_Z (extent d)));
        ("height", VNum (inject_Z (extent d)))].

Definition known (id : value) : bool :=
  match id with
  | VStr s => String.eqb s "#a"
  | _ => false
  end.

Definition measure (id : value) (d : doc) : reply value * doc :=
  match id with
  | VUndefined | VNull => (Ok (box_of d), d)
  | _ => if known id then (Ok (box_of d), d)
         else (Fail (EngineError SubelementNotFound "no such element"), d)
  end.

Definition crop (d : doc) : reply BoundingBox * doc :=
  (Ok (mkBox (1 # 16) (- (1 # 4096))
             (inject_Z (extent d) - (1 # 16)) (inject_Z (10 ^ 21))), d).

Definition name_of (f : value) : string :=
  match f with
  | VStr s => s
  | _ => "raw"
  end.

Definition target (id : value) : string :=
  match id with
  | VStr s => s
  | _ => "*"
  end.

Definition side (v : value) (d : doc) : Z :=
  match v with
  | VNum q => Qfloor q
  | _ => extent d
  end.

Definition paint (w h f id : value) (d : doc) : reply RenderResult * doc :=
  let unknown :=
    match f with
    | VStr s => negb (recognized s)
    | _ => false
    end in
  if unknown
  then (Fail (EngineError UnsupportedFormat "Invalid argument: format"), d)
  else
    let out := fun p =>
      mkRenderResult p (name_of f) (side w d) (side h d)
        (if String.eqb (name_of f) "raw" then Some "argb32" else None) in
    match faults d with
    | S k =>
        (Ok (out (Bytes [])),
         mkDoc (extent d) k (uri d) (dpi d) (loading d))
    | O =>
        (Ok (out (if String.eqb (name_of f) "svg"
                  then Text (target id)
                  else Bytes (list_byte_of_string (target id)))), d)
    end.

Definition engine : Engine :=
  mkEngine fold fold_empty open shut
    (fun d => (Ok (uri d), d)) with_uri
    (fun d => (Ok (dpi d), d)) with_dpi
    (fun d => (Ok (dpi d), d)) with_dpi
    extent extent
    (fun d => (Ok (VObj [("x", dpi d); ("y", dpi d)]), d))
    (fun vx _ => with_dpi vx)
    measure
    (fun id d => (Ok (VBool (known id)), d))
    crop paint.

(** [util.inspect] reduced to the keys of the object. *)
Definition inspect (o : list (string * value)) : string :=
  ("{" ++ concat "," (map (fun kv => " " ++ fst kv) o) ++ " }")%string.

(** A ten-by-ten document, healthy and closed. *)
Definition sound : doc := mkDoc 10 0 VNull (VNum 90) false.

(** The same with one transient fault pending. *)
Definition flaky : doc := mkDoc 10 1 VNull (VNum 90) false.

(** A document without extent whose renders come back empty. *)
Definition blank : doc := mkDoc 0 1 VNull (VNum 90) false.

End Toy.

(* ===================================================================== *)
(** ** Notions used in the statements *)
(* ===================================================================== *)

(** The error of the specification's taxonomy that the constructor throws
    on an input of the wrong type. *)
Definition InvalidInputType : error :=
  TypeError "buffer should be a Buffer instance or a string".

(** The bytes of an input the constructor accepts. *)
Definition source_bytes (buffer : value) : option (list byte) :=
  match buffer with
  | VStr s => Some (Buffer_from s)
  | VBuffer b => Some b
  | _ => None
  end.

(** The intrinsic size of the document a construction produced. *)
Definition loaded_size (E : Engine) (r : outcome (handle E) * list event)
  : option (Z * Z) :=
  match r with
  | (Ret h, _) => Some (handle_getWidth E h, handle_getHeight E h)
  | _ => None
  end.

(** The events of one pass of [render] over an options object: the call
    of the engine and the two reads of the intrinsic size. *)
Definition pass_events (o : value) : list event :=
  [ERender (get o "width") (get o "height") (get o "format") (get o "id");
   EGetWidth; EGetHeight].

(** A run that happens after the events [t]. *)
Definition after {H A : Type} (t : list event)
    (r : outcome A * H * list event) : outcome A * H * list event :=
  (result r, final r, t ++ trace r).

(** One pass of [render] over an options object with nothing after it:
    the engine is called once and its reply handed back. *)
Definition single_pass (E : Engine) (o : value) : M E RenderResult :=
  img <- native_render E (get o "width") (get o "height")
                       (get o "format") (get o "id") ;;
  _ <- width E ;;
  _ <- height E ;;
  ret img.

(** The engine answers the request of [o] with an empty payload [k] times
    in a row on a document with extent, and then with [img], which [render]
    accepts; [h1] is the state it is left in. *)
Fixpoint recovers (E : Engine) (k : nat) (o : value) (h : handle E)
    (img : RenderResult) (h1 : handle E) : Prop :=
  match k with
  | O =>
      handle_render E (get o "width") (get o "height")
                    (get o "format") (get o "id") h = (Ok img, h1)
      /\ (0 <? handle_getWidth E h1 + handle_getHeight E h1)
          && (payload_length (data img) =? 0) = false
  | S k' =>
      exists (empty : RenderResult) (h0 : handle E),
        handle_render E (get o "width") (get o "height")
                      (get o "format") (get o "id") h = (Ok empty, h0)
        /\ 0 < handle_getWidth E h0 + handle_getHeight E h0
        /\ payload_length (data empty) = 0
        /\ recovers E k' o h0 img h1
  end.

(** A computation that never calls [close] on the handle. *)
Definition no_close {E : Engine} {A : Type} (m : M E A) : Prop :=
  forall h : handle E, Forall (fun ev => is_close ev = false) (trace (m h)).

(** [d] is a double, and no double is nearer to [t]. *)
Definition nearest_double (t d : Q) : Prop :=
  is_double d
  /\ forall d' : Q, is_double d' -> (Qabs (d - t) <= Qabs (d' - t))%Q.

(** [r] is the Number for [q] rounded to three decimal digits: there is
    a whole number of thousandths [t], none nearer to [q], and [r] is a
    double nearest to [t]. *)
Definition rounded3 (q r : Q) : Prop :=
  exists t : Q,
    (exists n : Z, t == inject_Z n / 1000)%Q
    /\ (Qabs (t - q) <= 1 # 2000)%Q
    /\ nearest_double t r.

(* ===================================================================== *)
(** ** Engines that fail, and further notions *)
(* ===================================================================== *)

(** Variants of the toy engine: one whose [close] throws, one whose
    [render] answers every request with an empty buffer and never
    recovers, one whose [autocrop] computes whole thousandths. *)
Module Variants.

Definition refuse (d : Toy.doc) : reply unit * Toy.doc :=
  (Fail (EngineError OtherFault "handle is busy"), d).

Definition jam (w h f id : value) (d : Toy.doc) : reply RenderResult * Toy.doc :=
  (Ok (mkRenderResult (Bytes []) (Toy.name_of f) (Toy.side w d) (Toy.side h d)
         None), d).

Definition tidy (d : Toy.doc) : reply BoundingBox * Toy.doc :=
  (Ok (mkBox (1 # 8) (- (5 # 2)) (inject_Z (Toy.extent d))
             (round_double (7 # 1000))), d).

Definition variant (shut : Toy.doc -> reply unit * Toy.doc)
    (crop : Toy.doc -> reply BoundingBox * Toy.doc)
    (paint : value -> value -> value -> value -> Toy.doc ->
             reply RenderResult * Toy.doc) : Engine :=
  mkEngine Toy.fold Toy.fold_empty Toy.open shut
    (fun d => (Ok (Toy.uri d), d)) Toy.with_uri
    (fun d => (Ok (Toy.dpi d), d)) Toy.with_dpi
    (fun d => (Ok (Toy.dpi d), d)) Toy.with_dpi
    Toy.extent Toy.extent
    (fun d => (Ok (VObj [("x", Toy.dpi d); ("y", Toy.dpi d)]), d))
    (fun vx _ => Toy.with_dpi vx)
    Toy.measure
    (fun id d => (Ok (VBool (Toy.known id)), d))
    crop paint.

Definition unclosable : Engine := variant refuse Toy.crop Toy.paint.

Definition jammed : Engine := variant Toy.shut Toy.crop jam.

Definition exact : Engine := variant Toy.shut tidy Toy.paint.

End Variants.

(** A value on which [v.toLowerCase()] finds nothing to call. *)
Definition lacks_toLowerCase (v : value) : bool :=
  match v with
  | VStr _ | VStringObj _ => false
  | VObj _ =>
      match get v "toLowerCase" with
      | VFun _ => false
      | _ => true
      end
  | _ => true
  end.

(** The primitive values: not an object, a Buffer or a function. *)
Definition primitive (v : value) : bool :=
  match v with
  | VUndefined | VNull | VBool _ | VNum _ | VStr _ => true
  | VStringObj _ | VBuffer _ | VFun _ | VObj _ => false
  end.

(** On every state in [P] the engine answers the request of [o] with an
    empty payload, on a document with extent, and stays in [P]. *)
Definition always_empty (E : Engine) (o : value) (P : handle E -> Prop) : Prop :=
  forall h : handle E,
    P h ->
    exists (img : RenderResult) (h1 : handle E),
      handle_render E (get o "width") (get o "height")
                    (get o "format") (get o "id") h = (Ok img, h1)
      /\ 0 < handle_getWidth E h1 + handle_getHeight E h1
      /\ payload_length (data img) = 0
      /\ P h1.

Definition is_size_read (ev : event) : bool :=
  match ev with
  | EGetWidth | EGetHeight => true
  | _ => false
  end.

(** The calls on the binding that a use of the object may make. *)
Definition footprint (m : method) (ev : event) : bool :=
  match m, ev with
  | Get_baseURI, EGetBaseURI => true
  | Set_baseURI _, ESetBaseURI _ => true
  | Get_dpiX, EGetDPIX => true
  | Set_dpiX _, ESetDPIX _ => true
  | Get_dpiY, EGetDPIY => true
  | Set_dpiY _, ESetDPIY _ => true
  | Get_width, EGetWidth => true
  | Get_height, EGetHeight => true
  | Call_getDPI, EGetDPI => true
  | Call_setDPI _ _, ESetDPI _ _ => true
  | Call_dimensions _, EDimensions _ => true
  | Call_hasElement _, EHasElement _ => true
  | Call_autocrop, EAutocrop => true
  | Call_render _, _ => is_render ev || is_size_read ev
  | Call_renderRaw _ _ _, _ => is_render ev || is_size_read ev
  | Call_renderPNG _ _ _, _ => is_render ev || is_size_read ev
  | Call_renderPDF _ _ _, _ => is_render ev || is_size_read ev
  | Call_renderSVG _ _ _, _ => is_render ev || is_size_read ev
  | Call__renderArgs _, _ => is_render ev
  | Call_toString, EGetWidth => true
  | Call_toString, EGetHeight => true
  | Call_toString, EGetBaseURI => true
  | _, _ => false
  end.

(** A computation all of whose calls on the binding satisfy [p]. *)
Definition only {E : Engine} {A : Type} (p : event -> bool) (m : M E A) : Prop :=
  forall h : handle E, Forall (fun ev => p ev = true) (trace (m h)).

(** The decimal fraction that [q.toFixed(3)] spells, and [q] itself from
    10^21 on. *)
Definition exact3 (q : Q) : Q :=
  match toFixed 3 q with
  | Fixed neg n f => decimal neg n f
  | Shortest neg ax => if neg then (- ax)%Q else ax
  end.

(** [q] rounded to thousandths, halves away from zero. *)
Definition half_away3 (q : Q) : Q :=
  if Qle_bool 0 q
  then (inject_Z (nearest_integer (q * (1000 # 1))) / (1000 # 1))%Q
  else (- (inject_Z (nearest_integer (- q * (1000 # 1))) / (1000 # 1)))%Q.

(* ===================================================================== *)
(** * Properties *)
(* ===================================================================== *)

(** ** The constructor *)

Lemma typeof_string (v : value) :
  typeof v = "string" <-> exists s, v = VStr s.
Proof.
  split.
  - destruct v; simpl; intro H; try discriminate H. now exists s.
  - intros [s ->]. reflexivity.
Qed.

(** C5. An input that is neither a Buffer nor a string makes the
    constructor throw the TypeError [InvalidInputType], and the binding is
    not called at all: the trace of the construction is empty. *)
Theorem constructor_rejects_other_types (E : Engine) (buffer : value) :
  isBuffer buffer = false ->
  typeof buffer <> "string" ->
  constructor E buffer = (Throw InvalidInputType, []).
Proof.
  intros Hb Hs.
  destruct buffer; simpl in *; try reflexivity.
  - now contradiction Hs.
  - discriminate Hb.
Qed.

Lemma constructor_rejects_other_types_witness :
  constructor Toy.engine (VNum 3) = (Throw InvalidInputType, []).
Proof.
  apply (@constructor_rejects_other_types Toy.engine (VNum 3)).
  - reflexivity.
  - simpl. discriminate.
Defined.

(** C6. When the input is a Buffer or a string and the parse of its bytes
    fails in the engine with an error [e], the constructor throws an
    [Error] whose message is "Rsvg load failure: " followed by the message
    of [e]; no object is returned, and nothing but the parse was tried. *)
Theorem constructor_load_failure (E : Engine) (buffer : value)
    (b : list byte) (e : error) :
  source_bytes buffer = Some b ->
  binding_Rsvg E b = Fail e ->
  constructor E buffer
  = (Throw (Error ("Rsvg load failure: " ++ message e)%string), [EParse b]).
Proof.
  intros Hsrc Hparse.
  destruct buffer; simpl in Hsrc; try discriminate Hsrc;
    injection Hsrc as <-; unfold constructor; now rewrite Hparse.
Qed.

Lemma constructor_load_failure_witness :
  constructor Toy.engine (VStr "")
  = (Throw (Error "Rsvg load failure: no data"), [EParse []]).
Proof.
  apply (@constructor_load_failure Toy.engine (VStr "") []
           (EngineError ParseError "no data")); reflexivity.
Defined.

(** C7. Constructing from a string is constructing from the Buffer of its
    bytes: the two constructions are the same run, so they hand the same
    bytes to the parse of the engine and load documents of the same
    intrinsic width and height. *)
Theorem constructor_string_as_buffer (E : Engine) (s : string) :
  constructor E (VStr s) = constructor E (VBuffer (Buffer_from s))
  /\ filter is_parse (snd (constructor E (VStr s))) = [EParse (Buffer_from s)]
  /\ loaded_size E (constructor E (VStr s))
     = loaded_size E (constructor E (VBuffer (Buffer_from s))).
Proof.
  split; [reflexivity | split; [| reflexivity]].
  unfold constructor.
  destruct (binding_Rsvg E (Buffer_from s)) as [h | e]; simpl.
  - destruct (handle_close E h) as [[[] | e] h1]; reflexivity.
  - reflexivity.
Qed.

(** ** [render]: the two call shapes *)

Lemma positional_single (v : value) :
  positional [v] = negb (String.eqb (typeof v) "object").
Proof. reflexivity. Qed.

Lemma positional_many (v1 v2 : value) (rest : list value) :
  positional (v1 :: v2 :: rest) = true.
Proof. reflexivity. Qed.

Lemma or_empty_object (o : value) :
  typeof o = "object" ->
  typeof (or_empty o) = "object" /\ truthy (or_empty o) = true.
Proof.
  destruct o; simpl; intro H; try discriminate H; now split.
Qed.


(** The positional shape is one call on the engine at most, and what the
    engine replies is what the caller gets. *)
Lemma _renderArgs_direct (E : Engine) (args : list value) (h : handle E) :
  (exists e, _renderArgs E args h = (Throw e, h, []))
  \/ (exists f, _renderArgs E args h
                = native_render E (arg 0 args) (arg 1 args) f (arg 3 args) h).
Proof.
  unfold _renderArgs.
  destruct (truthy (arg 2 args)); [| right; now eexists].
  destruct (call_toLowerCase E (arg 2 args)) as [f | e].
  - right; now eexists.
  - left; now eexists.
Qed.

Lemma native_render_trace (E : Engine) (w hh f id : value) (h : handle E) :
  trace (native_render E w hh f id h) = [ERender w hh f id].
Proof.
  unfold native_render, call.
  now destruct (handle_render E w hh f id h).
Qed.

Lemma _renderArgs_one_call (E : Engine) (args : list value) (h : handle E) :
  (count is_render (trace (_renderArgs E args h)) <= 1)%nat.
Proof.
  destruct (_renderArgs_direct E args h) as [[e ->] | [f ->]].
  - unfold count; simpl; lia.
  - rewrite native_render_trace. unfold count; simpl; lia.
Qed.

Lemma render_unfold (E : Engine) (fuel : nat) (args : list value) :
  render E (S fuel) args
  = if positional args then _renderArgs E args
    else
      let options := or_empty (arg 0 args) in
      img <- native_render E (get options "width") (get options "height")
                           (get options "format") (get options "id") ;;
      w <- width E ;;
      h <- height E ;;
      if (0 <? w + h) && (payload_length (data img) =? 0)
      then render E fuel [options]
      else ret img.
Proof. reflexivity. Qed.

(** One activation of [render] on an options object, spelled out on the
    reply of the engine. *)
Lemma render_options_step (E : Engine) (fuel : nat) (options : value)
    (h : handle E) :
  typeof options = "object" ->
  let o := or_empty options in
  render E (S fuel) [options] h
  = match handle_render E (get o "width") (get o "height")
                        (get o "format") (get o "id") h with
    | (Ok img, h1) =>
        if (0 <? handle_getWidth E h1 + handle_getHeight E h1)
           && (payload_length (data img) =? 0)
        then after (pass_events o) (render E fuel [o] h1)
        else (Ret img, h1, pass_events o)
    | (Fail e, h1) =>
        (Throw e, h1,
         [ERender (get o "width") (get o "height")
                  (get o "format") (get o "id")])
    end.
Proof.
  intros Hobj o.
  rewrite render_unfold, positional_single, Hobj.
  change (negb ("object" =? "object")%string) with false. cbv iota.
  change (arg 0 [options]) with options. fold o. cbv zeta.
  unfold bind at 1. unfold native_render, call.
  destruct (handle_render E (get o "width") (get o "height")
              (get o "format") (get o "id") h) as [[img | e] h1];
    cbn [lift]; [| reflexivity].
  unfold bind, width, height, peek. cbn [app].
  destruct ((0 <? handle_getWidth E h1 + handle_getHeight E h1)
            && (payload_length (data img) =? 0)).
  - unfold after, result, final, trace, pass_events.
    destruct (render E fuel [o] h1) as [[r h2] t]. reflexivity.
  - reflexivity.
Qed.

Lemma non_positional_inv (args : list value) :
  positional args = false ->
  exists v, args = [v] /\ typeof v = "object".
Proof.
  destruct args as [| v [| v2 rest]]; try discriminate.
  rewrite positional_single. intro H. exists v. split; [reflexivity |].
  destruct (String.eqb_spec (typeof v) "object"); [assumption | discriminate H].
Qed.

Lemma single_pass_run (E : Engine) (o : value) (h : handle E) :
  single_pass E o h
  = match handle_render E (get o "width") (get o "height")
                        (get o "format") (get o "id") h with
    | (Ok img, h1) => (Ret img, h1, pass_events o)
    | (Fail e, h1) =>
        (Throw e, h1,
         [ERender (get o "width") (get o "height")
                  (get o "format") (get o "id")])
    end.
Proof.
  unfold single_pass, bind, native_render, call, width, height, peek, ret.
  now destruct (handle_render E (get o "width") (get o "height")
                  (get o "format") (get o "id") h) as [[img | e] h1].
Qed.

Lemma single_pass_one_call (E : Engine) (o : value) (h : handle E) :
  count is_render (trace (single_pass E o h)) = 1%nat.
Proof.
  rewrite single_pass_run.
  now destruct (handle_render E (get o "width") (get o "height")
                  (get o "format") (get o "id") h) as [[img | e] h1].
Qed.

Lemma Toy_keeps_size : render_keeps_size Toy.engine.
Proof.
  intros w hh f id d. simpl. unfold Toy.paint.
  destruct (match f with VStr s => negb (recognized s) | _ => false end);
    [now split |].
  destruct (Toy.faults d); now split.
Qed.

Lemma Toy_rejects_unknown_formats : rejects_unknown_formats Toy.engine.
Proof.
  intros w hh id s d Hs. simpl. unfold Toy.paint. rewrite Hs. simpl.
  now eexists.
Qed.

(** ** [render]: the retry *)

(** C2. On an options object, when the engine answers with a result whose
    payload is empty while the intrinsic width plus height is positive,
    [render] does not hand that result back: its outcome is the outcome of
    calling [render] again with the same options on the state the engine
    was left in.  The empty result appears nowhere in the outcome, as a
    value or as an error. *)
Theorem render_retries_on_empty_result (E : Engine) (fuel : nat)
    (options : value) (img : RenderResult) (h h1 : handle E) :
  typeof options = "object" ->
  handle_render E (get (or_empty options) "width")
                (get (or_empty options) "height")
                (get (or_empty options) "format")
                (get (or_empty options) "id") h = (Ok img, h1) ->
  0 < handle_getWidth E h1 + handle_getHeight E h1 ->
  payload_length (data img) = 0 ->
  render E (S fuel) [options] h
  = after (pass_events (or_empty options))
          (render E fuel [or_empty options] h1).
Proof.
  intros Hobj Hreply Hsize Hempty.
  rewrite (render_options_step E fuel options h Hobj). cbv zeta.
  rewrite Hreply.
  apply Z.ltb_lt in Hsize. apply Z.eqb_eq in Hempty.
  now rewrite Hsize, Hempty.
Qed.

Lemma render_retries_on_empty_result_witness :
  render Toy.engine 2 [VObj [("format", VStr "png")]] Toy.flaky
  = after (pass_events (VObj [("format", VStr "png")]))
          (render Toy.engine 1 [VObj [("format", VStr "png")]] Toy.sound).
Proof.
  apply (@render_retries_on_empty_result Toy.engine 1
           (VObj [("format", VStr "png")])
           (mkRenderResult (Bytes []) "png" 10 10 None)
           Toy.flaky Toy.sound); reflexivity.
Defined.

(** When the faults of the engine stop after [k] empty results, enough
    fuel lets [render] return the first result that is not one of them,
    after [k + 1] calls on the engine. *)
Lemma render_recovers (E : Engine) (k : nat) :
  forall (o : value) (h h1 : handle E) (img : RenderResult) (fuel : nat),
    typeof o = "object" ->
    truthy o = true ->
    recovers E k o h img h1 ->
    (k < fuel)%nat ->
    result (render E fuel [o] h) = Ret img
    /\ final (render E fuel [o] h) = h1
    /\ count is_render (trace (render E fuel [o] h)) = S k.
Proof.
  induction k as [| k IH]; intros o h h1 img fuel Hobj Htruthy Hrec Hfuel;
    (destruct fuel as [| fuel]; [lia |]);
    pose proof (render_options_step E fuel o h Hobj) as Hstep;
    cbv zeta in Hstep;
    assert (Ho : or_empty o = o) by (unfold or_empty; now rewrite Htruthy);
    rewrite Ho in Hstep; rewrite Hstep; clear Hstep.
  - destruct Hrec as [Hreply Hkeep]. rewrite Hreply, Hkeep.
    now repeat split.
  - destruct Hrec as (empty & h0 & Hreply & Hsize & Hempty & Hrest).
    rewrite Hreply.
    apply Z.ltb_lt in Hsize. apply Z.eqb_eq in Hempty.
    rewrite Hsize, Hempty. cbn [andb].
    destruct (IH o h0 h1 img fuel Hobj Htruthy Hrest ltac:(lia))
      as (Hres & Hfin & Hcount).
    unfold after. cbn [result final trace fst snd].
    repeat split; try assumption.
    unfold count in *. unfold pass_events. cbn [app filter is_render].
    cbn [List.length]. now f_equal.
Qed.

(** C3. On a document whose intrinsic width plus height is zero, a call
    of [render] of either shape is a single pass: the positional shape is
    [_renderArgs], the options shape is one call on the engine whose reply
    is handed back as it is, empty payload or not.  The engine is called
    at most once. *)
Theorem render_degenerate_no_retry (E : Engine) (fuel : nat)
    (args : list value) (h : handle E) :
  render_keeps_size E ->
  degenerate E h ->
  render E (S fuel) args h
  = (if positional args then _renderArgs E args h
     else single_pass E (or_empty (arg 0 args)) h)
  /\ (count is_render (trace (render E (S fuel) args h)) <= 1)%nat.
Proof.
  intros Hkeep Hdeg.
  assert (Heq : render E (S fuel) args h
                = if positional args then _renderArgs E args h
                  else single_pass E (or_empty (arg 0 args)) h).
  { destruct (positional args) eqn:Hpos.
    - now rewrite render_unfold, Hpos.
    - destruct (non_positional_inv args Hpos) as (v & -> & Hobj).
      change (arg 0 [v]) with v.
      rewrite (render_options_step E fuel v h Hobj), single_pass_run.
      cbv zeta.
      pose proof (Hkeep (get (or_empty v) "width") (get (or_empty v) "height")
                    (get (or_empty v) "format") (get (or_empty v) "id") h)
        as Hsize.
      cbv zeta in Hsize.
      destruct (handle_render E (get (or_empty v) "width")
                  (get (or_empty v) "height") (get (or_empty v) "format")
                  (get (or_empty v) "id") h) as [[img | e] h1];
        [| reflexivity].
      cbn [snd] in Hsize. destruct Hsize as [Hw Hh].
      unfold degenerate in Hdeg. rewrite Hw, Hh, Hdeg. reflexivity. }
  split; [exact Heq |].
  rewrite Heq. destruct (positional args).
  - apply _renderArgs_one_call.
  - rewrite single_pass_one_call. lia.
Qed.

Lemma render_degenerate_no_retry_witness :
  render Toy.engine 1 [VNull] Toy.blank
  = single_pass Toy.engine (VObj []) Toy.blank
  /\ (count is_render (trace (render Toy.engine 1 [VNull] Toy.blank)) <= 1)%nat.
Proof.
  apply (@render_degenerate_no_retry Toy.engine 0 [VNull] Toy.blank).
  - exact Toy_keeps_size.
  - reflexivity.
Defined.

(** ** [render]: which shape a call takes *)


(** C8, as amended.  In a call of the positional shape whose third
    argument is a string other than the empty one, the engine is handed
    that string in lower case, as the runtime's [toLowerCase] maps it,
    the other three arguments as they are, and its reply is the outcome.  With an engine that rejects the format
    strings outside the enumerated set, the outcome is then an
    [UnsupportedFormat] error unless the lower-case string is in the set. *)
Theorem positional_format_lowercased (E : Engine) (fuel : nat)
    (args : list value) (s : string) (h : handle E) :
  positional args = true ->
  arg 2 args = VStr s ->
  s <> "" ->
  rejects_unknown_formats E ->
  render E (S fuel) args h
  = native_render E (arg 0 args) (arg 1 args) (VStr (toLowerCase E s))
                  (arg 3 args) h
  /\ (recognized (toLowerCase E s) = true
      \/ exists msg,
           result (render E (S fuel) args h)
           = Throw (EngineError UnsupportedFormat msg)).
Proof.
  intros Hpos Hfmt Hne Hrej.
  assert (Heq : render E (S fuel) args h
                = native_render E (arg 0 args) (arg 1 args)
                                (VStr (toLowerCase E s)) (arg 3 args) h).
  { rewrite render_unfold, Hpos. unfold _renderArgs. rewrite Hfmt.
    cbn [truthy call_toLowerCase].
    destruct (String.eqb_spec s ""); [contradiction |].
    reflexivity. }
  split; [exact Heq |].
  destruct (recognized (toLowerCase E s)) eqn:Hrec; [now left | right].
  destruct (Hrej (arg 0 args) (arg 1 args) (arg 3 args) (toLowerCase E s) h Hrec)
    as [msg Hmsg].
  exists msg. rewrite Heq. unfold native_render, call, result.
  destruct (handle_render E (arg 0 args) (arg 1 args) (VStr (toLowerCase E s))
              (arg 3 args) h) as [r h1].
  cbn [fst] in *. now rewrite Hmsg.
Qed.

Lemma positional_format_lowercased_witness :
  render Toy.engine 1 [VNum 5; VNum 5; VStr "BMP"] Toy.sound
  = native_render Toy.engine (VNum 5) (VNum 5) (VStr "bmp") VUndefined Toy.sound
  /\ (recognized "bmp" = true
      \/ exists msg,
           result (render Toy.engine 1 [VNum 5; VNum 5; VStr "BMP"] Toy.sound)
           = Throw (EngineError UnsupportedFormat msg)).
Proof.
  apply (@positional_format_lowercased Toy.engine 0
           [VNum 5; VNum 5; VStr "BMP"] "BMP" Toy.sound).
  - reflexivity.
  - reflexivity.
  - discriminate.
  - exact Toy_rejects_unknown_formats.
Defined.

(** C8, as stated, fails on the empty string: it is a format string and
    not null, yet the engine is handed [null] in its place, and the toy
    engine, which would reject the empty string as a format, renders with
    its default. *)
Lemma positional_empty_format_becomes_null :
  trace (render Toy.engine 1 [VNum 5; VNum 5; VStr ""] Toy.sound)
  = [ERender (VNum 5) (VNum 5) VNull VUndefined]
  /\ trace (render Toy.engine 1 [VNum 5; VNum 5; VStr ""] Toy.sound)
     <> [ERender (VNum 5) (VNum 5) (VStr (toLowerCase Toy.engine "")) VUndefined]
  /\ recognized (toLowerCase Toy.engine "") = false
  /\ result (render Toy.engine 1 [VNum 5; VNum 5; VStr ""] Toy.sound)
     = Ret (mkRenderResult (Bytes [x2a]) "raw" 5 5 (Some "argb32")).
Proof.
  repeat split. vm_compute. discriminate.
Qed.

(** ** The legacy helpers *)

(** [render] looks at an options object through the four properties it
    reads and through nothing else. *)
Lemma render_reads_four_keys (E : Engine) (fuel : nat) :
  forall (o o' : value) (h : handle E),
    typeof o = "object" -> truthy o = true ->
    typeof o' = "object" -> truthy o' = true ->
    get o "width" = get o' "width" ->
    get o "height" = get o' "height" ->
    get o "format" = get o' "format" ->
    get o "id" = get o' "id" ->
    render E fuel [o] h = render E fuel [o'] h.
Proof.
  induction fuel as [| fuel IH];
    intros o o' h Hobj Ht Hobj' Ht' Hw Hh Hf Hid; [reflexivity |].
  rewrite (render_options_step E fuel o h Hobj),
          (render_options_step E fuel o' h Hobj').
  cbv zeta.
  assert (Ho : or_empty o = o) by (unfold or_empty; now rewrite Ht).
  assert (Ho' : or_empty o' = o') by (unfold or_empty; now rewrite Ht').
  rewrite Ho, Ho'. unfold pass_events. rewrite Hw, Hh, Hf, Hid.
  destruct (handle_render E (get o' "width") (get o' "height")
              (get o' "format") (get o' "id") h) as [[img | e] h1];
    [| reflexivity].
  destruct ((0 <? handle_getWidth E h1 + handle_getHeight E h1)
            && (payload_length (data img) =? 0)); [| reflexivity].
  now rewrite (IH o o' h1).
Qed.

(** Each helper is [render] on an options object of its format, its width
    and its height; the [id] it was given sits under the key [element],
    which [render] does not read, so it does not reach the engine. *)
Lemma helpers_ignore_id (E : Engine) (fuel : nat) (w hh id : value)
    (h : handle E) :
  let plain := fun f => VObj [("format", VStr f); ("width", w); ("height", hh)] in
  renderRaw E fuel w hh id h = render E fuel [plain "raw"] h
  /\ renderPNG E fuel w hh id h = render E fuel [plain "png"] h
  /\ renderPDF E fuel w hh id h = render E fuel [plain "pdf"] h
  /\ renderSVG E fuel w hh id h = render E fuel [plain "svg"] h.
Proof.
  cbv zeta.
  unfold renderRaw, renderPNG, renderPDF, renderSVG.
  repeat split; now apply render_reads_four_keys.
Qed.

(** C1, evaluated.  On a healthy ten-by-ten document of the toy engine
    each of the four helpers, asked for the subelement "#a", returns the
    render of the whole document ("*"), while [render] with the options
    [{format, width, height, id}] returns the render of "#a".  On the same
    document with one transient fault pending, the positional call returns
    the empty buffer that the options call replaces by a second render. *)
Theorem legacy_shapes_diverge :
  let canonical := fun f =>
    VObj [("format", VStr f); ("width", VNum 5); ("height", VNum 5);
          ("id", VStr "#a")] in
  let whole := fun f pf => Ret (mkRenderResult (Bytes [x2a]) f 5 5 pf) in
  let part := fun f pf => Ret (mkRenderResult (Bytes [x23; x61]) f 5 5 pf) in
  (result (renderRaw Toy.engine 2 (VNum 5) (VNum 5) (VStr "#a") Toy.sound)
   = whole "raw" (Some "argb32")
   /\ result (render Toy.engine 2 [canonical "raw"] Toy.sound)
      = part "raw" (Some "argb32"))
  /\ (result (renderPNG Toy.engine 2 (VNum 5) (VNum 5) (VStr "#a") Toy.sound)
      = whole "png" None
      /\ result (render Toy.engine 2 [canonical "png"] Toy.sound)
         = part "png" None)
  /\ (result (renderPDF Toy.engine 2 (VNum 5) (VNum 5) (VStr "#a") Toy.sound)
      = whole "pdf" None
      /\ result (render Toy.engine 2 [canonical "pdf"] Toy.sound)
         = part "pdf" None)
  /\ (result (renderSVG Toy.engine 2 (VNum 5) (VNum 5) (VStr "#a") Toy.sound)
      = Ret (mkRenderResult (Text "*") "svg" 5 5 None)
      /\ result (render Toy.engine 2 [canonical "svg"] Toy.sound)
         = Ret (mkRenderResult (Text "#a") "svg" 5 5 None))
  /\ (result (render Toy.engine 2 [VNum 5; VNum 5; VStr "png"; VStr "#a"]
                     Toy.flaky)
      = Ret (mkRenderResult (Bytes []) "png" 5 5 None)
      /\ result (render Toy.engine 2 [canonical "png"] Toy.flaky)
         = part "png" None).
Proof.
  cbv zeta. repeat split.
Qed.

(** ** The one [close] of a handle *)

Create HintDb no_close.

Section NoClose.

Variable E : Engine.

Lemma no_close_ret (A : Type) (a : A) : no_close (@ret E A a).
Proof. intro h. constructor. Qed.

Lemma no_close_throw (A : Type) (e : error) : no_close (@throw E A e).
Proof. intro h. constructor. Qed.

Lemma no_close_diverge (A : Type) : no_close (@diverge E A).
Proof. intro h. constructor. Qed.

Lemma no_close_call (A : Type) (ev : event)
    (op : handle E -> reply A * handle E) :
  is_close ev = false -> no_close (call ev op).
Proof.
  intros Hev h. unfold call, trace. destruct (op h) as [r h1]. simpl.
  now repeat constructor.
Qed.

Lemma no_close_peek (A : Type) (ev : event) (f : handle E -> A) :
  is_close ev = false -> no_close (peek ev f).
Proof. intros Hev h. unfold peek, trace. simpl. now repeat constructor. Qed.

Lemma no_close_bind (A B : Type) (m : M E A) (k : A -> M E B) :
  no_close m -> (forall a, no_close (k a)) -> no_close (bind m k).
Proof.
  intros Hm Hk h. unfold bind. specialize (Hm h).
  destruct (m h) as [[[a | e |] h1] t1]; unfold trace in *; simpl in *;
    try assumption.
  specialize (Hk a h1). destruct (k a h1) as [[r h2] t2]. simpl in *.
  apply Forall_app. now split.
Qed.

#[local] Hint Resolve no_close_ret no_close_throw no_close_diverge no_close_call
  no_close_peek no_close_bind : no_close.

Lemma no_close_native_render (w hh f id : value) :
  no_close (native_render E w hh f id).
Proof. unfold native_render. auto with no_close. Qed.

#[local] Hint Resolve no_close_native_render : no_close.

Lemma no_close__renderArgs (args : list value) : no_close (_renderArgs E args).
Proof.
  unfold _renderArgs.
  destruct (truthy (arg 2 args)); [| auto with no_close].
  destruct (call_toLowerCase E (arg 2 args)); auto with no_close.
Qed.

Lemma no_close_width : no_close (width E).
Proof. unfold width. auto with no_close. Qed.

Lemma no_close_height : no_close (height E).
Proof. unfold height. auto with no_close. Qed.

#[local] Hint Resolve no_close__renderArgs no_close_width no_close_height : no_close.

Lemma no_close_render (fuel : nat) :
  forall args : list value, no_close (render E fuel args).
Proof.
  induction fuel as [| fuel IH]; intro args.
  - apply no_close_diverge.
  - rewrite render_unfold.
    destruct (positional args); [auto with no_close |].
    cbv zeta.
    apply no_close_bind; [auto with no_close | intro img].
    apply no_close_bind; [auto with no_close | intro w].
    apply no_close_bind; [auto with no_close | intro hh].
    destruct ((0 <? w + hh) && (payload_length (data img) =? 0));
      auto with no_close.
Qed.

#[local] Hint Resolve no_close_render : no_close.

Lemma no_close_toString (inspect : list (string * value) -> string) :
  no_close (toString E inspect).
Proof.
  unfold toString, baseURI.
  apply no_close_bind; [auto with no_close | intro w].
  apply no_close_bind; [auto with no_close | intro hh].
  apply no_close_bind; [auto with no_close | intro u].
  apply no_close_bind; [| auto with no_close].
  destruct (truthy u); auto with no_close.
Qed.

Lemma invoke_no_close (inspect : list (string * value) -> string)
    (fuel : nat) (m : method) (h : handle E) :
  Forall (fun ev => is_close ev = false) (snd (invoke E inspect fuel m h)).
Proof.
  assert (Heff : forall (A : Type) (c : M E A),
             no_close c ->
             Forall (fun ev => is_close ev = false) (snd (effect c h))).
  { intros A c Hc. exact (Hc h). }
  destruct m; cbn [invoke]; apply Heff;
    unfold baseURI, set_baseURI, dpiX, set_dpiX, dpiY, set_dpiY, getDPI,
      setDPI, dimensions, hasElement, autocrop, renderRaw, renderPNG,
      renderPDF, renderSVG;
    auto using no_close_toString with no_close.
Qed.

Lemma session_no_close (inspect : list (string * value) -> string)
    (fuel : nat) (ms : list method) :
  forall h : handle E,
    Forall (fun ev => is_close ev = false) (session E inspect fuel ms h).
Proof.
  induction ms as [| m ms IH]; intro h; cbn [session]; [constructor |].
  pose proof (invoke_no_close inspect fuel m h) as Hm.
  destruct (invoke E inspect fuel m h) as [h1 t]. cbn [snd] in Hm.
  apply Forall_app. split; [assumption | apply IH].
Qed.

End NoClose.

Lemma count_none (p : event -> bool) (t : list event) :
  Forall (fun ev => p ev = false) t -> count p t = 0%nat.
Proof.
  unfold count. induction 1 as [| ev t Hev _ IH]; [reflexivity |].
  cbn [filter]. now rewrite Hev.
Qed.

Lemma constructor_success (E : Engine) (buffer : value) (h : handle E)
    (t : list event) :
  constructor E buffer = (Ret h, t) ->
  exists (b : list byte) (h0 : handle E),
    source_bytes buffer = Some b
    /\ binding_Rsvg E b = Ok h0
    /\ handle_close E h0 = (Ok tt, h)
    /\ t = [EParse b; EClose].
Proof.
  assert (Hbuf : forall b, constructor E (VBuffer b) = (Ret h, t) ->
             exists h0, binding_Rsvg E b = Ok h0
                        /\ handle_close E h0 = (Ok tt, h)
                        /\ t = [EParse b; EClose]).
  { intros b. unfold constructor.
    destruct (binding_Rsvg E b) as [h0 | e]; [| discriminate].
    destruct (handle_close E h0) as [[[] | e] h1] eqn:Hclose; [| discriminate].
    intro H. injection H as <- <-. now exists h0. }
  destruct buffer; try discriminate.
  - intro H. destruct (Hbuf (Buffer_from s) H) as (h0 & ? & ? & ?).
    now exists (Buffer_from s), h0.
  - intro H. destruct (Hbuf bytes H) as (h0 & ? & ? & ?).
    now exists bytes, h0.
Qed.

(** C9. When the constructor returns an object, it has called the engine
    twice: the parse of the bytes and then [close] on the handle the parse
    returned.  The handle of the object is the one [close] left, every
    later use of the object runs on it, and none of these uses calls
    [close]: over the whole life of the object the trace is the parse, the
    one [close], and a session without a [close]. *)
Theorem one_close_per_lifetime (E : Engine)
    (inspect : list (string * value) -> string) (fuel : nat)
    (buffer : value) (ms : list method) (h : handle E) (t : list event) :
  constructor E buffer = (Ret h, t) ->
  exists (b : list byte) (h0 : handle E),
    source_bytes buffer = Some b
    /\ binding_Rsvg E b = Ok h0
    /\ handle_close E h0 = (Ok tt, h)
    /\ t = [EParse b; EClose]
    /\ lifetime E inspect fuel buffer ms
       = EParse b :: EClose :: session E inspect fuel ms h
    /\ count is_close (session E inspect fuel ms h) = 0%nat
    /\ count is_close (lifetime E inspect fuel buffer ms) = 1%nat.
Proof.
  intro Hnew.
  destruct (constructor_success E buffer Hnew) as (b & h0 & Hsrc & Hparse & Hclose & Ht).
  exists b, h0.
  assert (Hlife : lifetime E inspect fuel buffer ms
                  = EParse b :: EClose :: session E inspect fuel ms h).
  { unfold lifetime. rewrite Hnew, Ht. reflexivity. }
  assert (Hquiet : count is_close (session E inspect fuel ms h) = 0%nat).
  { apply count_none, session_no_close. }
  repeat (split; [assumption |]).
  rewrite Hlife. unfold count in *. cbn [filter is_close List.length].
  now rewrite Hquiet.
Qed.

Lemma one_close_per_lifetime_witness :
  exists (b : list byte) (h0 : handle Toy.engine),
    source_bytes (VStr "!ab") = Some b
    /\ binding_Rsvg Toy.engine b = Ok h0
    /\ handle_close Toy.engine h0 = (Ok tt, (Toy.mkDoc 2 1 VNull (VNum 90) false))
    /\ [EParse (Buffer_from "!ab"); EClose] = [EParse b; EClose]
    /\ lifetime Toy.engine Toy.inspect 3 (VStr "!ab")
         [Call_render []; Call_autocrop; Call_toString]
       = EParse b :: EClose
         :: session Toy.engine Toy.inspect 3
              [Call_render []; Call_autocrop; Call_toString] (Toy.mkDoc 2 1 VNull (VNum 90) false)
    /\ count is_close
         (session Toy.engine Toy.inspect 3
            [Call_render []; Call_autocrop; Call_toString] (Toy.mkDoc 2 1 VNull (VNum 90) false)) = 0%nat
    /\ count is_close
         (lifetime Toy.engine Toy.inspect 3 (VStr "!ab")
            [Call_render []; Call_autocrop; Call_toString]) = 1%nat.
Proof.
  apply (@one_close_per_lifetime Toy.engine Toy.inspect 3 (VStr "!ab")
           [Call_render []; Call_autocrop; Call_toString]
           (Toy.mkDoc 2 1 VNull (VNum 90) false) [EParse (Buffer_from "!ab"); EClose]).
  reflexivity.
Defined.

(** ** Doubles and the rounding to the nearest *)

Unset Implicit Arguments.

Lemma pow2_pos (e : Z) : (0 < pow2 e)%Q.
Proof. now apply Qpower_0_lt. Qed.

Lemma pow2_plus (a b : Z) : (pow2 (a + b) == pow2 a * pow2 b)%Q.
Proof. apply Qpower_plus. discriminate. Qed.

Lemma pow2_le (a b : Z) : a <= b -> (pow2 a <= pow2 b)%Q.
Proof. intro H. apply Qpower_le_compat_l; [assumption | discriminate]. Qed.

Lemma pow2_lt (a b : Z) : a < b -> (pow2 a < pow2 b)%Q.
Proof. intro H. apply Qpower_lt_compat_l; [assumption | reflexivity]. Qed.

Lemma pow2_lt_inv (a b : Z) : (pow2 a < pow2 b)%Q -> a < b.
Proof. intro H. apply (Qpower_lt_compat_l_inv 2); [assumption | reflexivity]. Qed.

Lemma pow2_int (e : Z) : 0 <= e -> (pow2 e == inject_Z (2 ^ e))%Q.
Proof. intro H. unfold pow2. now rewrite Zpower_Qpower. Qed.

Lemma pow2_succ (a : Z) : (pow2 (a + 1) == 2 * pow2 a)%Q.
Proof. rewrite pow2_plus. change (pow2 1) with 2%Q. apply Qmult_comm. Qed.

Lemma log2_bounds (n : Z) :
  0 < n ->
  (pow2 (Z.log2 n) <= inject_Z n < pow2 (Z.log2 n + 1))%Q.
Proof.
  intro Hn. destruct (Z.log2_spec n Hn) as [Hlo Hhi].
  pose proof (Z.log2_nonneg n) as H0.
  rewrite !pow2_int by lia. rewrite <- Zle_Qle, <- Zlt_Qlt.
  split; [exact Hlo | now rewrite <- Z.add_1_r in Hhi].
Qed.

Lemma num_den (q : Q) :
  (q * inject_Z (Zpos (Qden q)) == inject_Z (Qnum q))%Q.
Proof. destruct q as [a b]. unfold Qeq. simpl. rewrite Pos.mul_1_r. lia. Qed.

Lemma cancel_lt (a b c : Q) : (0 < c)%Q -> (a * c < b * c)%Q -> (a < b)%Q.
Proof. intros Hc H. now apply (Qmult_lt_r a b c Hc). Qed.

Lemma floor_log2_spec (q : Q) :
  (0 < q)%Q ->
  (pow2 (floor_log2 q) <= q < pow2 (floor_log2 q + 1))%Q.
Proof.
  intro Hq. unfold floor_log2.
  set (la := Z.log2 (Qnum q)). set (lb := Z.log2 (Zpos (Qden q))).
  assert (Hnum : 0 < Qnum q).
  { unfold Qlt in Hq. simpl in Hq. lia. }
  destruct (log2_bounds (Qnum q) Hnum) as [Ha1 Ha2]. fold la in Ha1, Ha2.
  destruct (log2_bounds (Zpos (Qden q)) eq_refl) as [Hb1 Hb2].
  fold lb in Hb1, Hb2.
  pose proof (num_den q) as HqB.
  set (A := inject_Z (Qnum q)) in *. set (B := inject_Z (Zpos (Qden q))) in *.
  assert (HB : (0 < B)%Q) by (unfold B; now rewrite <- (Zlt_Qlt 0)).
  assert (Hlow : (pow2 (la - lb - 1) < q)%Q).
  { apply (cancel_lt _ _ B HB). rewrite HqB.
    apply Qlt_le_trans with (pow2 (la - lb - 1) * pow2 (lb + 1))%Q.
    - apply Qmult_lt_l; [apply pow2_pos | assumption].
    - rewrite <- pow2_plus. replace (la - lb - 1 + (lb + 1)) with la by ring.
      assumption. }
  assert (Hhigh : (q < pow2 (la - lb + 1))%Q).
  { apply (cancel_lt _ _ B HB). rewrite HqB.
    apply Qlt_le_trans with (pow2 (la - lb + 1) * pow2 lb)%Q.
    - rewrite <- pow2_plus. replace (la - lb + 1 + lb) with (la + 1) by ring.
      assumption.
    - apply Qmult_le_l; [apply pow2_pos | assumption]. }
  destruct (Qle_bool (pow2 (la - lb)) q) eqn:Hcmp.
  - apply Qle_bool_iff in Hcmp. now split.
  - split; [now apply Qlt_le_weak |].
    replace (la - lb - 1 + 1) with (la - lb) by ring.
    apply Qnot_le_lt. intro H. apply Qle_bool_iff in H.
    rewrite H in Hcmp. discriminate Hcmp.
Qed.

Lemma floor_log2_unique (q : Q) (k : Z) :
  (pow2 k <= q < pow2 (k + 1))%Q -> floor_log2 q = k.
Proof.
  intros [Hlo Hhi].
  assert (Hq : (0 < q)%Q) by (apply Qlt_le_trans with (pow2 k); [apply pow2_pos | assumption]).
  destruct (floor_log2_spec q Hq) as [Hlo' Hhi'].
  assert (H1 : k < floor_log2 q + 1)
    by (apply pow2_lt_inv; now apply Qle_lt_trans with q).
  assert (H2 : floor_log2 q < k + 1)
    by (apply pow2_lt_inv; now apply Qle_lt_trans with q).
  lia.
Qed.

Lemma half_even_close (q : Q) :
  (- (1 # 2) <= inject_Z (half_even q) - q <= 1 # 2)%Q.
Proof.
  unfold half_even.
  pose proof (Qfloor_le q) as Hlo. pose proof (Qlt_floor q) as Hhi.
  rewrite inject_Z_plus in Hhi. change (inject_Z 1) with 1%Q in Hhi.
  set (f := Qfloor q) in *.
  destruct (Qcompare_spec (q - inject_Z f) (1 # 2)) as [H | H | H].
  - destruct (Z.even f).
    + split; lra.
    + rewrite inject_Z_plus. change (inject_Z 1) with 1%Q. split; lra.
  - split; lra.
  - rewrite inject_Z_plus. change (inject_Z 1) with 1%Q. split; lra.
Qed.

Lemma half_even_comp (q1 q2 : Q) : (q1 == q2)%Q -> half_even q1 = half_even q2.
Proof.
  intro H. unfold half_even.
  rewrite (Qfloor_comp q1 q2 H).
  assert (Hc : (q1 - inject_Z (Qfloor q2) == q2 - inject_Z (Qfloor q2))%Q)
    by (now rewrite H).
  now rewrite (Qcompare_comp _ _ Hc _ _ (Qeq_refl (1 # 2))).
Qed.

Lemma apart (a b : Z) :
  a <> b -> (1 <= inject_Z a - inject_Z b \/ inject_Z a - inject_Z b <= - (1))%Q.
Proof.
  intro H. destruct (Z.lt_total a b) as [Hlt | [Heq | Hgt]]; [| contradiction |].
  - right. assert (Hle : a + 1 <= b) by lia. rewrite Zle_Qle in Hle.
    rewrite inject_Z_plus in Hle. change (inject_Z 1) with 1%Q in Hle. lra.
  - left. assert (Hle : b + 1 <= a) by lia. rewrite Zle_Qle in Hle.
    rewrite inject_Z_plus in Hle. change (inject_Z 1) with 1%Q in Hle. lra.
Qed.

Lemma half_even_nearest (q : Q) (z : Z) :
  (Qabs (inject_Z (half_even q) - q) <= Qabs (inject_Z z - q))%Q.
Proof.
  destruct (Z.eq_dec z (half_even q)) as [-> | Hne]; [apply Qle_refl |].
  pose proof (half_even_close q) as [Hlo Hhi].
  pose proof (apart z (half_even q) Hne) as Hap.
  set (H := inject_Z (half_even q)) in *. set (Z0 := inject_Z z) in *.
  apply Qabs_case; intros H1; apply Qabs_case; intros H2;
    destruct Hap; lra.
Qed.

(** The grid of [q]: the exponent of the last place of the doubles around it. *)
Lemma grid_spec (q : Q) :
  ~ (q == 0)%Q ->
  -1074 <= grid q
  /\ (Qabs q < pow2 (grid q + 53))%Q
  /\ (grid q = -1074 \/ (pow2 (grid q + 52) <= Qabs q)%Q).
Proof.
  intro Hq.
  assert (Hpos : (0 < Qabs q)%Q).
  { destruct (Qlt_le_dec 0 (Qabs q)) as [H | H]; [assumption |].
    exfalso. apply Hq.
    pose proof (Qabs_nonneg q) as H0.
    assert (Hz : (Qabs q == 0)%Q) by lra.
    revert Hz. apply Qabs_case; intros; lra. }
  destruct (floor_log2_spec (Qabs q) Hpos) as [Hlo Hhi].
  unfold grid. set (k := floor_log2 (Qabs q)) in *.
  split; [lia |]. split.
  - apply Qlt_le_trans with (pow2 (k + 1)); [assumption |].
    apply pow2_le. lia.
  - destruct (Z.max_spec (k - 52) (-1074)) as [[_ ->] | [_ ->]];
      [now left | right].
    now replace (k - 52 + 52) with k by lia.
Qed.

Lemma scaled (q : Q) (e : Z) : (q / pow2 e * pow2 e == q)%Q.
Proof.
  field. intro H. pose proof (pow2_pos e) as Hp. rewrite H in Hp.
  inversion Hp.
Qed.

Lemma Qabs_scale (a g : Q) : (0 < g)%Q -> (Qabs (a * g) == Qabs a * g)%Q.
Proof.
  intro Hg. rewrite Qabs_Qmult. rewrite (Qabs_pos g); [reflexivity |].
  now apply Qlt_le_weak.
Qed.

Lemma round_double_zero (q : Q) : (q == 0)%Q -> round_double q = 0%Q.
Proof.
  intro H. unfold round_double.
  now rewrite (proj2 (Qeq_bool_iff q 0) H).
Qed.

Lemma round_double_nonzero (q : Q) :
  ~ (q == 0)%Q ->
  round_double q
  = (inject_Z (half_even (q / pow2 (grid q))) * pow2 (grid q))%Q.
Proof.
  intro H. unfold round_double.
  destruct (Qeq_bool q 0) eqn:Hb; [| reflexivity].
  apply Qeq_bool_iff in Hb. contradiction.
Qed.

Lemma round_double_nearest_multiple (q : Q) (z : Z) :
  ~ (q == 0)%Q ->
  (Qabs (round_double q - q)
   <= Qabs (inject_Z z * pow2 (grid q) - q))%Q.
Proof.
  intro Hq. rewrite (round_double_nonzero q Hq).
  set (g := pow2 (grid q)).
  assert (Hg : (0 < g)%Q) by apply pow2_pos.
  pose proof (scaled q (grid q)) as Hx. fold g in Hx.
  set (x := (q / g)%Q) in *.
  assert (H1 : (inject_Z (half_even x) * g - q
                == (inject_Z (half_even x) - x) * g)%Q)
    by (rewrite <- Hx at 1; ring).
  assert (H2 : (inject_Z z * g - q == (inject_Z z - x) * g)%Q)
    by (rewrite <- Hx at 1; ring).
  rewrite H1, H2, !Qabs_scale by assumption.
  apply Qmult_le_compat_r; [apply half_even_nearest | now apply Qlt_le_weak].
Qed.

Lemma abs_bound_Q (m b : Z) :
  Z.abs m < b -> (Qabs (inject_Z m) < inject_Z b)%Q.
Proof.
  intro H. apply Qabs_case; intros _.
  - rewrite <- Zlt_Qlt. lia.
  - rewrite <- inject_Z_opp, <- Zlt_Qlt. lia.
Qed.

(** A double is on every grid that is not coarser than its own. *)
Lemma double_on_grid (m e e0 : Z) :
  e0 <= e ->
  (inject_Z m * pow2 e == inject_Z (m * 2 ^ (e - e0)) * pow2 e0)%Q.
Proof.
  intro H. rewrite inject_Z_mult, <- pow2_int by lia.
  rewrite <- Qmult_assoc, <- pow2_plus.
  now replace (e - e0 + e0) with e by ring.
Qed.

Lemma round_double_nearest (q d : Q) :
  is_double d ->
  (Qabs (round_double q - q) <= Qabs (d - q))%Q.
Proof.
  intros (m & e & Hm & He & Hd).
  destruct (Qeq_dec q 0) as [Hq | Hq].
  - rewrite (round_double_zero q Hq).
    assert (H0 : (Qabs (0 - q) == 0)%Q)
      by (rewrite Hq; reflexivity).
    rewrite H0. apply Qabs_nonneg.
  - destruct (grid_spec q Hq) as (Hg1 & Hg2 & Hg3).
    destruct (Z.le_gt_cases (grid q) e) as [Hle | Hgt].
    + rewrite Hd, (double_on_grid m e (grid q) Hle).
      now apply round_double_nearest_multiple.
    + destruct Hg3 as [Hg3 | Hg3]; [lia |].
      assert (Hsmall : (Qabs d < pow2 (grid q + 52))%Q).
      { rewrite Hd, Qabs_scale by apply pow2_pos.
        apply Qlt_le_trans with (inject_Z (2 ^ 53) * pow2 e)%Q.
        - apply Qmult_lt_r; [apply pow2_pos | now apply abs_bound_Q].
        - rewrite <- pow2_int, <- pow2_plus by lia. apply pow2_le. lia. }
      assert (Hp : (pow2 (grid q + 52) == inject_Z (2 ^ 52) * pow2 (grid q))%Q).
      { rewrite <- pow2_int by lia. rewrite <- pow2_plus.
        now replace (52 + grid q) with (grid q + 52) by ring. }
      pose proof (round_double_nearest_multiple q (2 ^ 52) Hq) as Hup.
      pose proof (round_double_nearest_multiple q (- 2 ^ 52) Hq) as Hdn.
      rewrite inject_Z_opp in Hdn.
      rewrite <- Hp in Hup.
      assert (Hdn' : (Qabs (round_double q - q)
                      <= Qabs (- pow2 (grid q + 52) - q))%Q).
      { rewrite Hp. setoid_replace (- (inject_Z (2 ^ 52) * pow2 (grid q)))%Q
          with (- inject_Z (2 ^ 52) * pow2 (grid q))%Q by ring.
        exact Hdn. }
      clear Hdn Hp.
      set (P := pow2 (grid q + 52)) in *.
      set (R := Qabs (round_double q - q)) in *.
      clearbody R P. revert Hsmall Hg3 Hup Hdn'.
      apply (Qabs_case d); intro; apply (Qabs_case q); intro;
        apply (Qabs_case (P - q)); intro; apply (Qabs_case (- P - q)); intro;
        apply (Qabs_case (d - q)); intros; lra.
Qed.

Lemma is_double_comp (q1 q2 : Q) : (q1 == q2)%Q -> is_double q1 -> is_double q2.
Proof.
  intros H (m & e & Hm & He & Hq). exists m, e.
  split; [assumption | split; [assumption | now rewrite <- H]].
Qed.

Lemma is_double_zero : is_double 0.
Proof. exists 0, 0. split; [reflexivity | split; [lia | reflexivity]]. Qed.

Lemma half_even_bound (q : Q) (b : Z) :
  (Qabs q < inject_Z b)%Q -> Z.abs (half_even q) <= b.
Proof.
  intro Hq. pose proof (half_even_close q) as [Hlo Hhi].
  assert (H1 : (inject_Z (half_even q) < inject_Z (b + 1))%Q).
  { rewrite inject_Z_plus. change (inject_Z 1) with 1%Q.
    revert Hq. apply Qabs_case; intros; lra. }
  assert (H2 : (inject_Z (- b - 1) < inject_Z (half_even q))%Q).
  { unfold Z.sub. rewrite inject_Z_plus, !inject_Z_opp.
    change (inject_Z 1) with 1%Q.
    revert Hq. apply Qabs_case; intros; lra. }
  rewrite <- Zlt_Qlt in H1, H2. lia.
Qed.

Lemma round_double_is_double (q : Q) : is_double (round_double q).
Proof.
  destruct (Qeq_dec q 0) as [Hq | Hq].
  - rewrite (round_double_zero q Hq). apply is_double_zero.
  - rewrite (round_double_nonzero q Hq).
    destruct (grid_spec q Hq) as (Hg1 & Hg2 & _).
    set (e := grid q) in *. set (h := half_even (q / pow2 e)).
    assert (Hh : Z.abs h <= 2 ^ 53).
    { apply half_even_bound.
      apply (cancel_lt _ _ (pow2 e) (pow2_pos e)).
      rewrite <- Qabs_scale, scaled by apply pow2_pos.
      rewrite <- pow2_int, <- pow2_plus by lia.
      now replace (53 + e) with (e + 53) by ring. }
    clearbody h.
    destruct (Z.eq_dec (Z.abs h) (2 ^ 53)) as [Heq | Hne].
    + assert (Hcases : h = 2 ^ 53 \/ h = - 2 ^ 53) by lia.
      destruct Hcases as [-> | ->].
      * exists (2 ^ 52), (e + 1). split; [reflexivity | split; [lia |]].
        rewrite pow2_succ.
        change (inject_Z (2 ^ 53)) with (2 * inject_Z (2 ^ 52))%Q. ring.
      * exists (- 2 ^ 52), (e + 1). split; [reflexivity | split; [lia |]].
        rewrite pow2_succ.
        change (inject_Z (- 2 ^ 53)) with (2 * inject_Z (- 2 ^ 52))%Q. ring.
    + exists h, e. split; [lia | split; [assumption | reflexivity]].
Qed.

Lemma round_double_fixes_doubles (q : Q) :
  is_double q -> (round_double q == q)%Q.
Proof.
  intro Hq. pose proof (round_double_nearest q q Hq) as H.
  assert (H0 : (Qabs (q - q) == 0)%Q).
  { setoid_replace (q - q)%Q with 0%Q by ring. reflexivity. }
  rewrite H0 in H. revert H. apply Qabs_case; intros; lra.
Qed.

Lemma Qabs_pos_lt (q : Q) : ~ (q == 0)%Q -> (0 < Qabs q)%Q.
Proof.
  intro Hq. apply Qabs_case; intro H.
  - destruct (Qle_lt_or_eq _ _ H) as [Hlt | Heq]; [assumption |].
    exfalso. apply Hq. now symmetry.
  - destruct (Qle_lt_or_eq _ _ H) as [Hlt | Heq]; [lra |].
    exfalso. now apply Hq.
Qed.

Lemma grid_comp (q1 q2 : Q) :
  ~ (q1 == 0)%Q -> (q1 == q2)%Q -> grid q1 = grid q2.
Proof.
  intros Hq H. unfold grid.
  pose proof (Qabs_pos_lt q1 Hq) as Hpos.
  destruct (floor_log2_spec (Qabs q1) Hpos) as [Hlo Hhi].
  assert (Hk : floor_log2 (Qabs q2) = floor_log2 (Qabs q1)).
  { apply floor_log2_unique.
    assert (Ha : (Qabs q1 == Qabs q2)%Q) by (now apply Qabs_wd).
    split; [now rewrite <- Ha | now rewrite <- Ha]. }
  now rewrite Hk.
Qed.

Lemma round_double_comp (q1 q2 : Q) :
  (q1 == q2)%Q -> (round_double q1 == round_double q2)%Q.
Proof.
  intro H. destruct (Qeq_dec q1 0) as [Hq | Hq].
  - rewrite (round_double_zero q1 Hq), (round_double_zero q2); [reflexivity |].
    now rewrite <- H.
  - assert (Hq2 : ~ (q2 == 0)%Q) by (now rewrite <- H).
    rewrite (round_double_nonzero q1 Hq), (round_double_nonzero q2 Hq2).
    rewrite <- (grid_comp q1 q2 Hq H).
    assert (Hx : (q1 / pow2 (grid q1) == q2 / pow2 (grid q1))%Q)
      by (apply Qdiv_comp; [exact H | reflexivity]).
    now rewrite (half_even_comp _ _ Hx).
Qed.

Lemma round_double_monotone (q1 q2 : Q) :
  (q1 <= q2)%Q -> (round_double q1 <= round_double q2)%Q.
Proof.
  intro Hle. destruct (Qle_lt_or_eq _ _ Hle) as [Hlt | Heq].
  - pose proof (round_double_nearest q1 (round_double q2)
                  (round_double_is_double q2)) as H1.
    pose proof (round_double_nearest q2 (round_double q1)
                  (round_double_is_double q1)) as H2.
    set (d1 := round_double q1) in *. set (d2 := round_double q2) in *.
    clearbody d1 d2.
    destruct (Qlt_le_dec d2 d1) as [Hbad | Hok]; [| assumption].
    exfalso. revert H1 H2.
    apply (Qabs_case (d1 - q1)); intro; apply (Qabs_case (d2 - q1)); intro;
      apply (Qabs_case (d2 - q2)); intro; apply (Qabs_case (d1 - q2));
      intros; lra.
  - rewrite (round_double_comp q1 q2 Heq). apply Qle_refl.
Qed.

Lemma round_double_error (q : Q) (k : Z) :
  -1022 <= k ->
  (Qabs q < pow2 (k + 1))%Q ->
  (Qabs (round_double q - q) <= pow2 (k - 53))%Q.
Proof.
  intros Hk Hq. destruct (Qeq_dec q 0) as [Hz | Hz].
  - rewrite (round_double_zero q Hz).
    assert (H0 : (Qabs (0 - q) == 0)%Q) by (rewrite Hz; reflexivity).
    rewrite H0. apply Qlt_le_weak, pow2_pos.
  - assert (Hgrid : grid q <= k - 52).
    { unfold grid. apply Z.max_lub; [| lia].
      pose proof (Qabs_pos_lt q Hz) as Hpos.
      destruct (floor_log2_spec (Qabs q) Hpos) as [Hlo _].
      assert (floor_log2 (Qabs q) < k + 1)
        by (apply pow2_lt_inv; now apply Qle_lt_trans with (Qabs q)).
      lia. }
    rewrite (round_double_nonzero q Hz).
    set (g := pow2 (grid q)).
    pose proof (scaled q (grid q)) as Hx. fold g in Hx.
    set (x := (q / g)%Q) in *.
    assert (H1 : (inject_Z (half_even x) * g - q
                  == (inject_Z (half_even x) - x) * g)%Q)
      by (rewrite <- Hx at 1; ring).
    rewrite H1, Qabs_scale by apply pow2_pos.
    assert (Hhalf : (Qabs (inject_Z (half_even x) - x) <= 1 # 2)%Q)
      by (apply Qabs_Qle_condition, half_even_close).
    assert (Hg : (g <= 2 * pow2 (k - 53))%Q).
    { rewrite <- pow2_succ. apply pow2_le. lia. }
    pose proof (pow2_pos (grid q)) as Hg0. fold g in Hg0.
    set (a := Qabs (inject_Z (half_even x) - x)) in *.
    pose proof (Qabs_nonneg (inject_Z (half_even x) - x)) as Ha0. fold a in Ha0.
    clearbody a g. nra.
Qed.

(** ** [autocrop]: rounding to three decimals *)

Lemma nearest_integer_close (q : Q) :
  (- (1 # 2) <= inject_Z (nearest_integer q) - q <= 1 # 2)%Q.
Proof.
  unfold nearest_integer.
  pose proof (Qfloor_le (q + (1 # 2))) as Hlo.
  pose proof (Qlt_floor (q + (1 # 2))) as Hhi.
  rewrite inject_Z_plus in Hhi. change (inject_Z 1) with 1%Q in Hhi.
  split; lra.
Qed.

(** A double of magnitude 10^21 or more is a whole number. *)
Lemma large_double_whole (q : Q) :
  is_double q ->
  (inject_Z (10 ^ 21) <= q \/ inject_Z (10 ^ 21) <= - q)%Q ->
  exists n : Z, (q == inject_Z n)%Q.
Proof.
  intros (m & e & Hm & _ & Hq) Hbig.
  destruct (Z.le_gt_cases 0 e) as [He | He].
  - exists (m * 2 ^ e)%Z.
    now rewrite Hq, inject_Z_mult, pow2_int.
  - exfalso.
    assert (Hp1 : (pow2 e <= 1)%Q).
    { change 1%Q with (pow2 0). apply pow2_le. lia. }
    pose proof (pow2_pos e) as Hp0.
    assert (Hlo : (inject_Z (- 2 ^ 53) < inject_Z m)%Q)
      by (rewrite <- Zlt_Qlt; lia).
    assert (Hhi : (inject_Z m < inject_Z (2 ^ 53))%Q)
      by (rewrite <- Zlt_Qlt; lia).
    change (inject_Z (- 2 ^ 53)) with (- 9007199254740992 # 1)%Q in Hlo.
    change (inject_Z (2 ^ 53)) with (9007199254740992 # 1)%Q in Hhi.
    change (inject_Z (10 ^ 21)) with (1000000000000000000000 # 1)%Q in Hbig.
    rewrite Hq in Hbig.
    set (p := pow2 e) in *. set (mq := inject_Z m) in *.
    clearbody p mq.
    destruct Hbig as [Hbig | Hbig]; nra.
Qed.

Lemma large_or_small (q : Q) :
  {(inject_Z (10 ^ 21) <= q \/ q <= - inject_Z (10 ^ 21))%Q}
  + {(- inject_Z (10 ^ 21) < q < inject_Z (10 ^ 21))%Q}.
Proof.
  destruct (Qlt_le_dec q (inject_Z (10 ^ 21))) as [Hhi | Hhi];
    [| left; now left].
  destruct (Qlt_le_dec (- inject_Z (10 ^ 21)) q) as [Hlo | Hlo];
    [right; now split | left; now right].
Qed.

Lemma exact3_large (q : Q) :
  (inject_Z (10 ^ 21) <= q \/ q <= - inject_Z (10 ^ 21))%Q ->
  (exact3 q == q)%Q.
Proof.
  change (inject_Z (10 ^ 21)) with (1000000000000000000000 # 1)%Q.
  intro Hbig. unfold exact3, toFixed.
  change (inject_Z (10 ^ 21)) with (1000000000000000000000 # 1)%Q.
  destruct (Qle_bool 0 q) eqn:Hsign; cbn [negb].
  - apply Qle_bool_iff in Hsign.
    destruct (Qle_bool (1000000000000000000000 # 1) q) eqn:Hcut;
      [reflexivity |].
    exfalso. destruct Hbig as [Hbig | Hbig]; [| lra].
    apply Qle_bool_iff in Hbig. rewrite Hbig in Hcut. discriminate Hcut.
  - destruct (Qle_bool (1000000000000000000000 # 1) (- q)) eqn:Hcut;
      [lra |].
    exfalso.
    assert (Hneg : ~ (0 <= q)%Q)
      by (intro H; apply Qle_bool_iff in H; rewrite H in Hsign;
          discriminate Hsign).
    destruct Hbig as [Hbig | Hbig]; [apply Hneg; lra |].
    assert (Hcut' : ((1000000000000000000000 # 1) <= - q)%Q) by lra.
    apply Qle_bool_iff in Hcut'. rewrite Hcut' in Hcut. discriminate Hcut.
Qed.

Lemma exact3_small (q : Q) :
  (- inject_Z (10 ^ 21) < q < inject_Z (10 ^ 21))%Q ->
  (exact3 q == half_away3 q)%Q.
Proof.
  change (inject_Z (10 ^ 21)) with (1000000000000000000000 # 1)%Q.
  intros [Hlo Hhi]. unfold exact3, toFixed, half_away3.
  change (inject_Z (10 ^ 21)) with (1000000000000000000000 # 1)%Q.
  change (pow10 3) with (1000 # 1)%Q.
  destruct (Qle_bool 0 q) eqn:Hsign; cbn [negb].
  - destruct (Qle_bool (1000000000000000000000 # 1) q) eqn:Hcut;
      [| reflexivity].
    apply Qle_bool_iff in Hcut. lra.
  - destruct (Qle_bool (1000000000000000000000 # 1) (- q)) eqn:Hcut;
      [| reflexivity].
    apply Qle_bool_iff in Hcut. lra.
Qed.

(** [x.toFixed(3) * 1] is the double nearest to what the digits spell:
    the second rounding, that of the product with 1, changes nothing. *)
Lemma toFixed3_value (q : Q) :
  (times (toFixed 3 q) 1 == round_double (exact3 q))%Q.
Proof.
  unfold times, exact3.
  destruct (toFixed 3 q) as [neg n f | neg ax]; cbn [ToNumber].
  - rewrite (round_double_comp _ _ (Qmult_1_r (round_double (decimal neg n f)))).
    apply round_double_fixes_doubles, round_double_is_double.
  - apply round_double_comp, Qmult_1_r.
Qed.

(** 0.0625 is written "0.063", and the Number of that is the double
    4539628424389460 * 2^-56, which is not 63/1000; -2^-12 is written
    "-0.000"; a double from 10^21 on is written by [ToString] and comes
    back as it was. *)
Example toFixed3_of_sixteenth :
  toFixed 3 (1 # 16) = Fixed false 63 3
  /\ (times (toFixed 3 (1 # 16)) 1
      == inject_Z 4539628424389460 * pow2 (-56))%Q
  /\ ~ (times (toFixed 3 (1 # 16)) 1 == 63 # 1000)%Q.
Proof.
  split; [reflexivity | split; [vm_compute; reflexivity |]].
  vm_compute. discriminate.
Qed.

Example toFixed3_of_small_negative :
  toFixed 3 (- (1 # 4096)) = Fixed true 0 3
  /\ (times (toFixed 3 (- (1 # 4096))) 1 == 0)%Q.
Proof. split; [reflexivity | vm_compute; reflexivity]. Qed.

Example toFixed3_of_large :
  toFixed 3 (inject_Z (10 ^ 21)) = Shortest false (inject_Z (10 ^ 21))
  /\ (times (toFixed 3 (inject_Z (10 ^ 21))) 1 == inject_Z (10 ^ 21))%Q.
Proof. split; [reflexivity | vm_compute; reflexivity]. Qed.

Lemma half_away3_close (q : Q) : (Qabs (half_away3 q - q) <= 1 # 2000)%Q.
Proof.
  apply Qabs_Qle_condition. unfold half_away3.
  destruct (Qle_bool 0 q).
  - pose proof (nearest_integer_close (q * (1000 # 1))) as [Hlo Hhi].
    set (N := inject_Z (nearest_integer (q * (1000 # 1)))) in *. clearbody N.
    unfold Qdiv. change (/ (1000 # 1))%Q with (1 # 1000)%Q. split; lra.
  - pose proof (nearest_integer_close (- q * (1000 # 1))) as [Hlo Hhi].
    set (N := inject_Z (nearest_integer (- q * (1000 # 1)))) in *. clearbody N.
    unfold Qdiv. change (/ (1000 # 1))%Q with (1 # 1000)%Q. split; lra.
Qed.

Lemma half_away3_thousandth (q : Q) :
  exists n : Z, (half_away3 q == inject_Z n / 1000)%Q.
Proof.
  unfold half_away3. destruct (Qle_bool 0 q).
  - exists (nearest_integer (q * (1000 # 1))). reflexivity.
  - exists (- nearest_integer (- q * (1000 # 1)))%Z.
    rewrite inject_Z_opp. field.
Qed.

Lemma exact3_close (q : Q) : (Qabs (exact3 q - q) <= 1 # 2000)%Q.
Proof.
  destruct (large_or_small q) as [Hbig | Hsmall].
  - assert (H0 : (exact3 q - q == 0)%Q)
      by (rewrite (exact3_large q Hbig); ring).
    rewrite (Qabs_wd _ _ H0). discriminate.
  - assert (H0 : (exact3 q - q == half_away3 q - q)%Q)
      by (rewrite (exact3_small q Hsmall); reflexivity).
    rewrite (Qabs_wd _ _ H0). apply half_away3_close.
Qed.

Lemma exact3_thousandth (q : Q) :
  is_double q -> exists n : Z, (exact3 q == inject_Z n / 1000)%Q.
Proof.
  intro Hdouble. destruct (large_or_small q) as [Hbig | Hsmall].
  - assert (Hbig' : (inject_Z (10 ^ 21) <= q \/ inject_Z (10 ^ 21) <= - q)%Q)
      by (destruct Hbig; [now left | right; lra]).
    destruct (large_double_whole q Hdouble Hbig') as [n Hn].
    exists (1000 * n)%Z.
    rewrite (exact3_large q Hbig), inject_Z_mult, <- Hn.
    change (inject_Z 1000) with (1000 # 1)%Q. field.
  - destruct (half_away3_thousandth q) as [n Hn]. exists n.
    now rewrite (exact3_small q Hsmall).
Qed.

Lemma nearest_double_of_round (t r : Q) :
  (r == round_double t)%Q -> nearest_double t r.
Proof.
  intro Hr. split.
  - apply (is_double_comp (round_double t) r); [now symmetry |].
    apply round_double_is_double.
  - intros d Hd.
    assert (H0 : (r - t == round_double t - t)%Q) by (now rewrite Hr).
    rewrite (Qabs_wd _ _ H0). now apply round_double_nearest.
Qed.

(** [x.toFixed(3) * 1] on a double is the Number for that double rounded
    to three decimals. *)
Lemma toFixed3_rounds (q : Q) :
  is_double q -> rounded3 q (times (toFixed 3 q) 1).
Proof.
  intro Hdouble. exists (exact3 q).
  split; [now apply exact3_thousandth |].
  split; [apply exact3_close |].
  apply nearest_double_of_round, toFixed3_value.
Qed.

(** C4. Whatever box of doubles the engine computes, the box that
    [autocrop] returns has in each of its four fields the engine's value
    rounded to three decimals, as a Number: the double nearest to the
    nearest whole number of thousandths.  The engine's own values are not
    handed out. *)
Theorem autocrop_rounds_fields (E : Engine) (h h1 : handle E)
    (raw : BoundingBox) :
  handle_autocrop E h = (Ok raw, h1) ->
  is_double (box_x raw) ->
  is_double (box_y raw) ->
  is_double (box_width raw) ->
  is_double (box_height raw) ->
  exists area : BoundingBox,
    autocrop E h = (Ret area, h1, [EAutocrop])
    /\ rounded3 (box_x raw) (box_x area)
    /\ rounded3 (box_y raw) (box_y area)
    /\ rounded3 (box_width raw) (box_width area)
    /\ rounded3 (box_height raw) (box_height area).
Proof.
  intros Hraw Hx Hy Hw Hh.
  unfold autocrop, bind, call. rewrite Hraw. cbn [lift ret app].
  eexists. split; [reflexivity |].
  cbn [box_x box_y box_width box_height].
  repeat split; now apply toFixed3_rounds.
Qed.

Lemma autocrop_rounds_fields_witness :
  exists area : BoundingBox,
    autocrop Toy.engine Toy.sound = (Ret area, Toy.sound, [EAutocrop])
    /\ rounded3 (1 # 16) (box_x area)
    /\ rounded3 (- (1 # 4096)) (box_y area)
    /\ rounded3 (inject_Z 10 - (1 # 16)) (box_width area)
    /\ rounded3 (inject_Z (10 ^ 21)) (box_height area).
Proof.
  apply (@autocrop_rounds_fields Toy.engine Toy.sound Toy.sound
           (mkBox (1 # 16) (- (1 # 4096)) (inject_Z 10 - (1 # 16))
                  (inject_Z (10 ^ 21)))).
  - reflexivity.
  - exists 1, (-4). split; [reflexivity | split; [lia | reflexivity]].
  - exists (-1), (-12). split; [reflexivity | split; [lia | reflexivity]].
  - exists 159, (-4). split; [reflexivity | split; [lia | reflexivity]].
  - exists (5 ^ 21), 21. split; [reflexivity | split; [lia | reflexivity]].
Defined.

Set Implicit Arguments.

(* ===================================================================== *)
(** * Further properties of the code *)
(* ===================================================================== *)

(** ** [render]: what the retry guarantees *)

Lemma render_recovers_witness :
  result (render Toy.engine 2 [VObj [("format", VStr "png")]] Toy.flaky)
  = Ret (mkRenderResult (Bytes [x2a]) "png" 10 10 None)
  /\ final (render Toy.engine 2 [VObj [("format", VStr "png")]] Toy.flaky)
     = Toy.sound
  /\ count is_render
       (trace (render Toy.engine 2 [VObj [("format", VStr "png")]] Toy.flaky))
     = 2%nat.
Proof.
  apply (@render_recovers Toy.engine 1 (VObj [("format", VStr "png")])
           Toy.flaky Toy.sound
           (mkRenderResult (Bytes [x2a]) "png" 10 10 None) 2).
  - reflexivity.
  - reflexivity.
  - exists (mkRenderResult (Bytes []) "png" 10 10 None), Toy.sound.
    repeat split.
  - lia.
Defined.

Lemma after_result (H A : Type) (t : list event)
    (r : outcome A * H * list event) :
  result (after t r) = result r.
Proof. reflexivity. Qed.

Lemma after_final (H A : Type) (t : list event)
    (r : outcome A * H * list event) :
  final (after t r) = final r.
Proof. reflexivity. Qed.

Lemma after_trace (H A : Type) (t : list event)
    (r : outcome A * H * list event) :
  trace (after t r) = t ++ trace r.
Proof. reflexivity. Qed.

(** An engine that never stops answering with empty buffers makes
    [render] on an options object use up any fuel: every activation calls
    the engine once and starts the next one, and no result is returned. *)
Theorem render_never_gives_up (E : Engine) (o : value)
    (P : handle E -> Prop) (fuel : nat) :
  forall h : handle E,
    typeof o = "object" ->
    truthy o = true ->
    always_empty E o P ->
    P h ->
    result (render E fuel [o] h) = Diverge
    /\ count is_render (trace (render E fuel [o] h)) = fuel.
Proof.
  induction fuel as [| fuel IH]; intros h Hobj Htruthy Hjam HP;
    [now split |].
  assert (Ho : or_empty o = o) by (unfold or_empty; now rewrite Htruthy).
  pose proof (render_options_step E fuel o h Hobj) as Hstep.
  cbv zeta in Hstep. rewrite Ho in Hstep. rewrite Hstep. clear Hstep.
  destruct (Hjam h HP) as (img & h1 & Hreply & Hsize & Hempty & HP1).
  rewrite Hreply.
  apply Z.ltb_lt in Hsize. apply Z.eqb_eq in Hempty.
  rewrite Hsize, Hempty. cbn [andb].
  destruct (IH h1 Hobj Htruthy Hjam HP1) as [Hres Hcount].
  rewrite after_result, after_trace. split; [assumption |].
  unfold count in *. unfold pass_events. cbn [app filter is_render].
  cbn [List.length]. now f_equal.
Qed.

Lemma render_never_gives_up_witness :
  result (render Variants.jammed 7 [VObj []] Toy.sound) = Diverge
  /\ count is_render (trace (render Variants.jammed 7 [VObj []] Toy.sound))
     = 7%nat.
Proof.
  apply (@render_never_gives_up Variants.jammed (VObj [])
           (fun d => Toy.extent d = 10) 7 Toy.sound).
  - reflexivity.
  - reflexivity.
  - intros d Hd. exists (mkRenderResult (Bytes []) "raw" 10 10 None), d.
    simpl. unfold Variants.jam, Toy.side. simpl. rewrite Hd.
    repeat split.
  - reflexivity.
Defined.

(** What [render] returns for an options object has passed the guard: its
    payload is not empty, unless the document in its final state has no
    extent. *)
Theorem render_result_passed_guard (E : Engine) (fuel : nat) :
  forall (o : value) (h : handle E) (img : RenderResult),
    typeof o = "object" ->
    result (render E fuel [o] h) = Ret img ->
    0 < handle_getWidth E (final (render E fuel [o] h))
        + handle_getHeight E (final (render E fuel [o] h)) ->
    payload_length (data img) <> 0.
Proof.
  induction fuel as [| fuel IH]; intros o h img Hobj; [discriminate |].
  rewrite (render_options_step E fuel o h Hobj). cbv zeta.
  destruct (handle_render E (get (or_empty o) "width")
              (get (or_empty o) "height") (get (or_empty o) "format")
              (get (or_empty o) "id") h) as [[img0 | e] h1];
    [| discriminate].
  destruct ((0 <? handle_getWidth E h1 + handle_getHeight E h1)
            && (payload_length (data img0) =? 0)) eqn:Hguard.
  - rewrite after_result, after_final.
    apply IH. now apply or_empty_object.
  - unfold result, final. cbn [fst snd]. intros Hret Hsize.
    injection Hret as ->.
    apply Z.ltb_lt in Hsize. rewrite Hsize in Hguard. cbn [andb] in Hguard.
    now apply Z.eqb_neq.
Qed.

Lemma render_result_passed_guard_witness :
  result (render Toy.engine 2 [VObj [("format", VStr "png")]] Toy.flaky)
  = Ret (mkRenderResult (Bytes [x2a]) "png" 10 10 None)
  /\ payload_length (data (mkRenderResult (Bytes [x2a]) "png" 10 10 None)) <> 0.
Proof.
  split; [reflexivity |].
  apply (@render_result_passed_guard Toy.engine 2
           (VObj [("format", VStr "png")]) Toy.flaky
           (mkRenderResult (Bytes [x2a]) "png" 10 10 None)).
  - reflexivity.
  - reflexivity.
  - reflexivity.
Defined.





(** ** [_renderArgs]: the format argument *)

(** A third argument that is truthy and has no [toLowerCase] to call (a
    number, [true], a Buffer, a function, an object without such a
    method) makes a positional call throw a TypeError before the engine
    is called: the handle is as it was and the trace is empty. *)
Theorem positional_format_without_method (E : Engine) (fuel : nat)
    (args : list value) (h : handle E) :
  positional args = true ->
  truthy (arg 2 args) = true ->
  lacks_toLowerCase (arg 2 args) = true ->
  render E (S fuel) args h
  = (Throw (TypeError "format.toLowerCase is not a function"), h, []).
Proof.
  intros Hpos Htruthy Hlacks.
  rewrite render_unfold, Hpos. unfold _renderArgs. rewrite Htruthy.
  unfold call_toLowerCase.
  destruct (arg 2 args) as [| | b | q | s | s | bytes | call | props];
    try discriminate Hlacks; try reflexivity.
  unfold lacks_toLowerCase in Hlacks.
  destruct (get (VObj props) "toLowerCase");
    try discriminate Hlacks; reflexivity.
Qed.

Lemma positional_format_without_method_witness :
  render Toy.engine 1 [VNum 5; VNum 5; VObj [("name", VStr "png")]] Toy.sound
  = (Throw (TypeError "format.toLowerCase is not a function"), Toy.sound, []).
Proof.
  apply (@positional_format_without_method Toy.engine 0
           [VNum 5; VNum 5; VObj [("name", VStr "png")]] Toy.sound).
  - reflexivity.
  - reflexivity.
  - reflexivity.
Defined.

(** When the third argument of a positional call is a primitive value,
    the format that reaches the engine is [null] or the lower-cased form
    of a non-empty string, itself not empty; width, height and id reach
    the engine as they were passed. *)
Theorem positional_hands_null_or_lowercase (E : Engine) (args : list value)
    (h : handle E) (w hh f id : value) :
  In (ERender w hh f id) (trace (_renderArgs E args h)) ->
  primitive (arg 2 args) = true ->
  w = arg 0 args /\ hh = arg 1 args /\ id = arg 3 args
  /\ (f = VNull
      \/ exists s,
           arg 2 args = VStr s /\ s <> ""
           /\ f = VStr (toLowerCase E s) /\ toLowerCase E s <> "").
Proof.
  unfold _renderArgs.
  destruct (truthy (arg 2 args)) eqn:Htruthy.
  - destruct (arg 2 args) as [| | b | q | s | s | bytes | call | props] eqn:Hfmt;
      cbn [call_toLowerCase]; try (intros []); try (intros _ Hprim; discriminate Hprim).
    rewrite native_render_trace. intros [Hev | []] _.
    injection Hev as <- <- <- <-. repeat split; try reflexivity.
    right. exists s.
    assert (Hne : s <> "").
    { intros ->. discriminate Htruthy. }
    repeat split; try assumption.
    intro Hempty. now apply (proj1 (toLowerCase_empty E s)) in Hempty.
  - rewrite native_render_trace. intros [Hev | []] _.
    injection Hev as <- <- <- <-. repeat split; try reflexivity. now left.
Qed.

Lemma positional_hands_null_or_lowercase_witness :
  VNum 5 = arg 0 [VNum 5; VNum 6; VStr "Png"; VStr "#a"]
  /\ VNum 6 = arg 1 [VNum 5; VNum 6; VStr "Png"; VStr "#a"]
  /\ VStr "#a" = arg 3 [VNum 5; VNum 6; VStr "Png"; VStr "#a"]
  /\ (VStr "png" = VNull
      \/ exists s,
           arg 2 [VNum 5; VNum 6; VStr "Png"; VStr "#a"] = VStr s /\ s <> ""
           /\ VStr "png" = VStr (toLowerCase Toy.engine s)
           /\ toLowerCase Toy.engine s <> "").
Proof.
  apply (@positional_hands_null_or_lowercase Toy.engine
           [VNum 5; VNum 6; VStr "Png"; VStr "#a"] Toy.sound
           (VNum 5) (VNum 6) (VStr "png") (VStr "#a")).
  - simpl. now left.
  - reflexivity.
Defined.

(** Two positional calls that differ only in the case of the letters of
    the format are the same call on the engine. *)
Theorem positional_format_case_insensitive (E : Engine) (fuel : nat)
    (w hh id : value) (s1 s2 : string) (h : handle E) :
  toLowerCase E s1 = toLowerCase E s2 ->
  render E (S fuel) [w; hh; VStr s1; id] h
  = render E (S fuel) [w; hh; VStr s2; id] h.
Proof.
  intro Hsame.
  rewrite !render_unfold, !positional_many. unfold _renderArgs.
  cbn [arg nth truthy call_toLowerCase].
  destruct (String.eqb_spec s1 "") as [-> | Hne1].
  - symmetry in Hsame. rewrite (proj2 (toLowerCase_empty E "") eq_refl) in Hsame.
    apply (proj1 (toLowerCase_empty E s2)) in Hsame. now subst s2.
  - destruct (String.eqb_spec s2 "") as [-> | Hne2].
    + rewrite (proj2 (toLowerCase_empty E "") eq_refl) in Hsame.
      apply (proj1 (toLowerCase_empty E s1)) in Hsame. contradiction.
    + cbn [negb]. now rewrite Hsame.
Qed.

Lemma positional_format_case_insensitive_witness :
  render Toy.engine 1 [VNum 5; VNum 5; VStr "PnG"; VNull] Toy.sound
  = render Toy.engine 1 [VNum 5; VNum 5; VStr "pNg"; VNull] Toy.sound.
Proof.
  apply (@positional_format_case_insensitive Toy.engine 0
           (VNum 5) (VNum 5) VNull "PnG" "pNg" Toy.sound).
  reflexivity.
Defined.

(** ** The constructor: every way it can end *)

(** The constructor ends in one of four ways, told apart by its trace: it
    returns an object after a parse and a close; it throws
    [InvalidInputType] without calling the engine, exactly when the input
    is neither a Buffer nor a string; or it throws an [Error] whose
    message starts with "Rsvg load failure: ", after a parse that failed
    or after a close that did.  An error of the engine never leaves the
    constructor unwrapped. *)
Theorem constructor_outcomes (E : Engine) (buffer : value) :
  match constructor E buffer with
  | (Ret h, t) =>
      exists b, source_bytes buffer = Some b /\ t = [EParse b; EClose]
  | (Throw e, t) =>
      (e = InvalidInputType /\ t = [] /\ source_bytes buffer = None)
      \/ (exists b e0,
            source_bytes buffer = Some b
            /\ e = Error ("Rsvg load failure: " ++ message e0)%string
            /\ ((binding_Rsvg E b = Fail e0 /\ t = [EParse b])
                \/ (exists h0,
                      binding_Rsvg E b = Ok h0
                      /\ fst (handle_close E h0) = Fail e0
                      /\ t = [EParse b; EClose])))
  | (Diverge, _) => False
  end.
Proof.
  assert (Hbuf : forall b,
             match constructor E (VBuffer b) with
             | (Ret h, t) => t = [EParse b; EClose]
             | (Throw e, t) =>
                 exists e0,
                   e = Error ("Rsvg load failure: " ++ message e0)%string
                   /\ ((binding_Rsvg E b = Fail e0 /\ t = [EParse b])
                       \/ (exists h0,
                             binding_Rsvg E b = Ok h0
                             /\ fst (handle_close E h0) = Fail e0
                             /\ t = [EParse b; EClose]))
             | (Diverge, _) => False
             end).
  { intro b. unfold constructor.
    destruct (binding_Rsvg E b) as [h0 | e0] eqn:Hparse.
    - destruct (handle_close E h0) as [[[] | e1] h1] eqn:Hclose;
        [reflexivity |].
      exists e1. split; [reflexivity | right].
      exists h0. now rewrite Hclose.
    - exists e0. split; [reflexivity | now left]. }
  destruct buffer as [| | bl | q | s | so | b | call | props];
    try (left; now repeat split).
  - specialize (Hbuf (Buffer_from s)).
    change (constructor E (VStr s))
      with (constructor E (VBuffer (Buffer_from s))).
    destruct (constructor E (VBuffer (Buffer_from s))) as [[h | e |] t].
    + now exists (Buffer_from s).
    + destruct Hbuf as (e0 & He & Ht). right. now exists (Buffer_from s), e0.
    + assumption.
  - specialize (Hbuf b).
    destruct (constructor E (VBuffer b)) as [[h | e |] t].
    + now exists b.
    + destruct Hbuf as (e0 & He & Ht). right. now exists b, e0.
    + assumption.
Qed.

(** When the parse succeeds and [close] then throws, the constructor
    throws the load failure with the message of that error, and no object
    is returned although the engine holds a parsed handle. *)
Theorem constructor_close_failure (E : Engine) (buffer : value)
    (b : list byte) (h0 h1 : handle E) (e : error) :
  source_bytes buffer = Some b ->
  binding_Rsvg E b = Ok h0 ->
  handle_close E h0 = (Fail e, h1) ->
  constructor E buffer
  = (Throw (Error ("Rsvg load failure: " ++ message e)%string),
     [EParse b; EClose]).
Proof.
  intros Hsrc Hparse Hclose.
  destruct buffer; simpl in Hsrc; try discriminate Hsrc;
    injection Hsrc as <-; unfold constructor;
    now rewrite Hparse, Hclose.
Qed.

Lemma constructor_close_failure_witness :
  constructor Variants.unclosable (VStr "ab")
  = (Throw (Error "Rsvg load failure: handle is busy"),
     [EParse (Buffer_from "ab"); EClose]).
Proof.
  apply (@constructor_close_failure Variants.unclosable (VStr "ab")
           (Buffer_from "ab")
           (Toy.mkDoc 1 0 VNull (VNum 90) true)
           (Toy.mkDoc 1 0 VNull (VNum 90) true)
           (EngineError OtherFault "handle is busy")); reflexivity.
Defined.

(** ** Which calls on the binding a method makes *)

Section Only.

Variable E : Engine.
Variable p : event -> bool.

Lemma only_ret (A : Type) (a : A) : only p (@ret E A a).
Proof. intro h. constructor. Qed.

Lemma only_throw (A : Type) (e : error) : only p (@throw E A e).
Proof. intro h. constructor. Qed.

Lemma only_diverge (A : Type) : only p (@diverge E A).
Proof. intro h. constructor. Qed.

Lemma only_call (A : Type) (ev : event)
    (op : handle E -> reply A * handle E) :
  p ev = true -> only p (call ev op).
Proof.
  intros Hev h. unfold call, trace. destruct (op h) as [r h1]. simpl.
  now repeat constructor.
Qed.

Lemma only_peek (A : Type) (ev : event) (f : handle E -> A) :
  p ev = true -> only p (peek ev f).
Proof. intros Hev h. unfold peek, trace. simpl. now repeat constructor. Qed.

Lemma only_bind (A B : Type) (m : M E A) (k : A -> M E B) :
  only p m -> (forall a, only p (k a)) -> only p (bind m k).
Proof.
  intros Hm Hk h. unfold bind. specialize (Hm h).
  destruct (m h) as [[[a | e |] h1] t1]; unfold trace in *; simpl in *;
    try assumption.
  specialize (Hk a h1). destruct (k a h1) as [[r h2] t2]. simpl in *.
  apply Forall_app. now split.
Qed.

Lemma only__renderArgs (args : list value) :
  (forall w hh f id, p (ERender w hh f id) = true) ->
  only p (_renderArgs E args).
Proof.
  intro Hp. unfold _renderArgs, native_render.
  destruct (truthy (arg 2 args)); [| now apply only_call].
  destruct (call_toLowerCase E (arg 2 args));
    [now apply only_call | apply only_throw].
Qed.

Lemma only_render (fuel : nat) :
  (forall w hh f id, p (ERender w hh f id) = true) ->
  p EGetWidth = true ->
  p EGetHeight = true ->
  forall args : list value, only p (render E fuel args).
Proof.
  intros Hr Hw Hh.
  induction fuel as [| fuel IH]; intro args; [apply only_diverge |].
  rewrite render_unfold.
  destruct (positional args); [now apply only__renderArgs |].
  cbv zeta.
  apply only_bind; [now apply only_call | intro img].
  apply only_bind; [now apply only_peek | intro w].
  apply only_bind; [now apply only_peek | intro hh].
  destruct ((0 <? w + hh) && (payload_length (data img) =? 0));
    [apply IH | apply only_ret].
Qed.

End Only.

Lemma invoke_within_footprint (E : Engine)
    (inspect : list (string * value) -> string) (fuel : nat) (m : method)
    (h : handle E) :
  Forall (fun ev => footprint m ev = true) (snd (invoke E inspect fuel m h)).
Proof.
  assert (Heff : forall (A : Type) (c : M E A),
             only (footprint m) c ->
             Forall (fun ev => footprint m ev = true) (snd (effect c h))).
  { intros A c Hc. exact (Hc h). }
  destruct m; cbn [invoke]; apply Heff;
    unfold baseURI, set_baseURI, dpiX, set_dpiX, dpiY, set_dpiY, width,
      height, getDPI, setDPI, dimensions, hasElement, autocrop, renderRaw,
      renderPNG, renderPDF, renderSVG, toString;
    try (apply only_render; reflexivity);
    try (apply only__renderArgs; reflexivity);
    repeat first
      [ apply only_call; reflexivity
      | apply only_peek; reflexivity
      | apply only_ret
      | apply only_bind; [| intro ] ].
  destruct (truthy a1);
    repeat first
      [ apply only_call; reflexivity
      | apply only_ret
      | apply only_bind; [| intro ] ].
Qed.

(** No use of an object reaches beyond its own calls on the binding: a
    getter or setter makes its one call, [autocrop], [dimensions] and
    [hasElement] theirs, the render methods call render and read the size,
    [toString] reads width, height and base URI.  In a session every call
    on the binding belongs to the footprint of one of the methods used, so
    rendering or printing an object changes none of its settings. *)
Theorem session_within_footprints (E : Engine)
    (inspect : list (string * value) -> string) (fuel : nat)
    (ms : list method) :
  forall h : handle E,
    Forall (fun ev => existsb (fun m => footprint m ev) ms = true)
           (session E inspect fuel ms h).
Proof.
  induction ms as [| m ms IH]; intro h; cbn [session]; [constructor |].
  pose proof (invoke_within_footprint E inspect fuel m h) as Hm.
  destruct (invoke E inspect fuel m h) as [h1 t]. cbn [snd] in Hm.
  apply Forall_app. split.
  - eapply Forall_impl; [| exact Hm].
    intros ev Hev. cbn [existsb]. now rewrite Hev.
  - eapply Forall_impl; [| apply IH].
    intros ev Hev. cbn [existsb]. rewrite Hev. apply orb_true_r.
Qed.

Lemma footprint_no_parse (m : method) (ev : event) :
  footprint m ev = true -> is_parse ev = false.
Proof. destruct m, ev; simpl; intro H; try reflexivity; discriminate H. Qed.

(** The document is parsed once: over the life of an object the trace has
    the parse of the constructor in first place and no other. *)
Theorem one_parse_per_lifetime (E : Engine)
    (inspect : list (string * value) -> string) (fuel : nat)
    (buffer : value) (ms : list method) (h : handle E) (t : list event) :
  constructor E buffer = (Ret h, t) ->
  exists (b : list byte) (rest : list event),
    source_bytes buffer = Some b
    /\ lifetime E inspect fuel buffer ms = EParse b :: rest
    /\ count is_parse rest = 0%nat.
Proof.
  intro Hnew.
  destruct (constructor_success E buffer Hnew)
    as (b & h0 & Hsrc & _ & _ & Ht).
  exists b, (EClose :: session E inspect fuel ms h).
  split; [assumption |]. split.
  - unfold lifetime. now rewrite Hnew, Ht.
  - apply count_none. constructor; [reflexivity |].
    assert (Hall : forall (l : list method) (h' : handle E),
               Forall (fun ev => is_parse ev = false)
                      (session E inspect fuel l h')).
    { induction l as [| m l IH]; intro h'; cbn [session]; [constructor |].
      pose proof (invoke_within_footprint E inspect fuel m h') as Hm.
      destruct (invoke E inspect fuel m h') as [h1 t1]. cbn [snd] in Hm.
      apply Forall_app. split; [| apply IH].
      eapply Forall_impl; [| exact Hm]. intro ev. apply footprint_no_parse. }
    apply Hall.
Qed.

Lemma one_parse_per_lifetime_witness :
  exists (b : list byte) (rest : list event),
    source_bytes (VStr "!ab") = Some b
    /\ lifetime Toy.engine Toy.inspect 3 (VStr "!ab")
         [Call_render []; Call_renderPNG VNull VNull VNull; Call_toString]
       = EParse b :: rest
    /\ count is_parse rest = 0%nat.
Proof.
  apply (@one_parse_per_lifetime Toy.engine Toy.inspect 3 (VStr "!ab")
           [Call_render []; Call_renderPNG VNull VNull VNull; Call_toString]
           (Toy.mkDoc 2 1 VNull (VNum 90) false)
           [EParse (Buffer_from "!ab"); EClose]).
  reflexivity.
Defined.

(** ** [autocrop]: the rounding as a function *)

Lemma thousandth_le (a b : Z) :
  (a <= b)%Z ->
  (inject_Z a / (1000 # 1) <= inject_Z b / (1000 # 1))%Q.
Proof.
  intro Hab. rewrite Zle_Qle in Hab. unfold Qdiv.
  change (/ (1000 # 1))%Q with (1 # 1000)%Q. lra.
Qed.

Lemma thousandth_nonneg (a : Z) :
  (0 <= a)%Z -> (0 <= inject_Z a / (1000 # 1))%Q.
Proof.
  intro Ha. rewrite Zle_Qle in Ha. change (inject_Z 0) with 0%Q in Ha.
  unfold Qdiv. change (/ (1000 # 1))%Q with (1 # 1000)%Q. lra.
Qed.

Lemma nearest_integer_le (q1 q2 : Q) :
  (q1 <= q2)%Q -> (nearest_integer q1 <= nearest_integer q2)%Z.
Proof.
  intro H. unfold nearest_integer. apply Qfloor_resp_le. lra.
Qed.

Lemma nearest_integer_nonneg (q : Q) :
  (0 <= q)%Q -> (0 <= nearest_integer q)%Z.
Proof.
  intro H. change 0%Z with (Qfloor 0). unfold nearest_integer.
  apply Qfloor_resp_le. lra.
Qed.

Lemma half_away3_monotone (q1 q2 : Q) :
  (q1 <= q2)%Q -> (half_away3 q1 <= half_away3 q2)%Q.
Proof.
  intro Hle. unfold half_away3.
  destruct (Qle_bool 0 q1) eqn:H1; destruct (Qle_bool 0 q2) eqn:H2.
  - apply thousandth_le, nearest_integer_le. lra.
  - exfalso. apply Qle_bool_iff in H1.
    assert (H : (0 <= q2)%Q) by lra.
    apply Qle_bool_iff in H. rewrite H in H2. discriminate H2.
  - apply Qle_bool_iff in H2.
    assert (Hn1 : ~ (0 <= q1)%Q)
      by (intro H; apply Qle_bool_iff in H; rewrite H in H1; discriminate H1).
    pose proof (thousandth_nonneg
                  (nearest_integer_nonneg (q := - q1 * (1000 # 1))
                     ltac:(lra))) as Ha.
    pose proof (thousandth_nonneg
                  (nearest_integer_nonneg (q := q2 * (1000 # 1))
                     ltac:(lra))) as Hb.
    set (A := (inject_Z (nearest_integer (- q1 * (1000 # 1))) / (1000 # 1))%Q)
      in *.
    set (B := (inject_Z (nearest_integer (q2 * (1000 # 1))) / (1000 # 1))%Q)
      in *.
    clearbody A B. lra.
  - pose proof (thousandth_le
                  (nearest_integer_le (q1 := - q2 * (1000 # 1))
                     (q2 := - q1 * (1000 # 1)) ltac:(lra))) as Ha.
    set (A := (inject_Z (nearest_integer (- q1 * (1000 # 1))) / (1000 # 1))%Q)
      in *.
    set (B := (inject_Z (nearest_integer (- q2 * (1000 # 1))) / (1000 # 1))%Q)
      in *.
    clearbody A B. lra.
Qed.

Lemma half_away3_bounded (q : Q) :
  (- inject_Z (10 ^ 21) < q < inject_Z (10 ^ 21))%Q ->
  (- inject_Z (10 ^ 21) <= half_away3 q <= inject_Z (10 ^ 21))%Q.
Proof.
  change (inject_Z (10 ^ 21)) with (1000000000000000000000 # 1)%Q.
  intros [Hlo Hhi].
  assert (Hcap : forall a : Q,
             (0 <= a)%Q -> (a < (1000000000000000000000 # 1))%Q ->
             (0 <= inject_Z (nearest_integer (a * (1000 # 1))) / (1000 # 1)
              <= 1000000000000000000000 # 1)%Q).
  { intros a Ha0 Ha1. split.
    - apply thousandth_nonneg, nearest_integer_nonneg. lra.
    - apply Qle_trans with (inject_Z (10 ^ 24) / (1000 # 1))%Q;
        [| vm_compute; discriminate].
      apply thousandth_le.
      change (10 ^ 24)%Z
        with (nearest_integer (1000000000000000000000000 # 1)).
      apply nearest_integer_le. lra. }
  unfold half_away3. destruct (Qle_bool 0 q) eqn:Hsign.
  - apply Qle_bool_iff in Hsign.
    destruct (Hcap q Hsign Hhi) as [H0 H1]. split; [| exact H1].
    set (A := (inject_Z (nearest_integer (q * (1000 # 1))) / (1000 # 1))%Q)
      in *.
    clearbody A. lra.
  - assert (Hneg : ~ (0 <= q)%Q)
      by (intro H; apply Qle_bool_iff in H; rewrite H in Hsign;
          discriminate Hsign).
    destruct (Hcap (- q)%Q ltac:(lra) ltac:(lra)) as [H0 H1].
    set (A := (inject_Z (nearest_integer (- q * (1000 # 1))) / (1000 # 1))%Q)
      in *.
    clearbody A. split; lra.
Qed.

Lemma exact3_monotone (q1 q2 : Q) :
  (q1 <= q2)%Q -> (exact3 q1 <= exact3 q2)%Q.
Proof.
  intro Hle.
  destruct (large_or_small q1) as [H1 | H1];
    destruct (large_or_small q2) as [H2 | H2].
  - rewrite (exact3_large q1 H1), (exact3_large q2 H2). exact Hle.
  - rewrite (exact3_large q1 H1), (exact3_small q2 H2).
    pose proof (half_away3_bounded H2) as [Hb _].
    destruct H1 as [H1 | H1];
      [| now apply Qle_trans with (- inject_Z (10 ^ 21))%Q].
    exfalso. destruct H2 as [_ H2].
    apply (Qlt_irrefl q2). apply Qlt_le_trans with (inject_Z (10 ^ 21)).
    + exact H2.
    + now apply Qle_trans with q1.
  - rewrite (exact3_small q1 H1), (exact3_large q2 H2).
    pose proof (half_away3_bounded H1) as [_ Hb].
    destruct H2 as [H2 | H2];
      [now apply Qle_trans with (inject_Z (10 ^ 21)) |].
    exfalso. destruct H1 as [H1 _].
    apply (Qlt_irrefl q1). apply Qle_lt_trans with (- inject_Z (10 ^ 21))%Q.
    + now apply Qle_trans with q2.
    + exact H1.
  - rewrite (exact3_small q1 H1), (exact3_small q2 H2).
    now apply half_away3_monotone.
Qed.

(** The rounding that [autocrop] applies to a field keeps the order of
    values: a value that is not above another is not above it after
    rounding either, across the change of regime at 10^21 too. *)
Theorem toFixed3_monotone (q1 q2 : Q) :
  (q1 <= q2)%Q ->
  (times (toFixed 3 q1) 1 <= times (toFixed 3 q2) 1)%Q.
Proof.
  intro Hle.
  rewrite (toFixed3_value q1), (toFixed3_value q2).
  now apply round_double_monotone, exact3_monotone.
Qed.

Lemma toFixed3_monotone_witness :
  (times (toFixed 3 (1 # 16)) 1
   <= times (toFixed 3 (inject_Z (10 ^ 21))) 1)%Q.
Proof.
  apply (@toFixed3_monotone (1 # 16) (inject_Z (10 ^ 21))).
  vm_compute. discriminate.
Defined.

Lemma whole_within_one (a b : Z) :
  (- (1) < inject_Z a - inject_Z b < 1)%Q -> a = b.
Proof.
  intros [Hlo Hhi].
  assert (H1 : (inject_Z a < inject_Z (b + 1))%Q)
    by (rewrite inject_Z_plus; change (inject_Z 1) with 1%Q; lra).
  assert (H2 : (inject_Z b < inject_Z (a + 1))%Q)
    by (rewrite inject_Z_plus; change (inject_Z 1) with 1%Q; lra).
  rewrite <- Zlt_Qlt in H1, H2. lia.
Qed.

(** The double of a whole number of thousandths, up to 10^12 in
    magnitude, comes out of the rounding as it went in. *)
Lemma toFixed3_fixes_rounded (q : Q) (n : Z) :
  Z.abs n <= 10 ^ 15 ->
  (q == round_double (inject_Z n / (1000 # 1)))%Q ->
  (times (toFixed 3 q) 1 == q)%Q.
Proof.
  intros Hn Hq.
  assert (Hn1 : (inject_Z (- 10 ^ 15) <= inject_Z n)%Q)
    by (rewrite <- Zle_Qle; lia).
  assert (Hn2 : (inject_Z n <= inject_Z (10 ^ 15))%Q)
    by (rewrite <- Zle_Qle; lia).
  change (inject_Z (- 10 ^ 15)) with (- 1000000000000000 # 1)%Q in Hn1.
  change (inject_Z (10 ^ 15)) with (1000000000000000 # 1)%Q in Hn2.
  assert (Ht : (Qabs (inject_Z n / (1000 # 1)) < pow2 (39 + 1))%Q).
  { change (pow2 (39 + 1)) with (1099511627776 # 1)%Q.
    unfold Qdiv. change (/ (1000 # 1))%Q with (1 # 1000)%Q.
    apply Qabs_case; intros _; lra. }
  pose proof (round_double_error (inject_Z n / (1000 # 1)) 39 ltac:(lia) Ht)
    as Herr.
  change (pow2 (39 - 53)) with (1 # 16384)%Q in Herr.
  apply Qabs_Qle_condition in Herr. destruct Herr as [Herr1 Herr2].
  rewrite <- Hq in Herr1, Herr2.
  unfold Qdiv in Herr1, Herr2.
  change (/ (1000 # 1))%Q with (1 # 1000)%Q in Herr1, Herr2.
  assert (Hsmall : (- inject_Z (10 ^ 21) < q < inject_Z (10 ^ 21))%Q).
  { change (inject_Z (10 ^ 21)) with (1000000000000000000000 # 1)%Q.
    split; lra. }
  assert (Hex : (exact3 q == inject_Z n / (1000 # 1))%Q).
  { rewrite (exact3_small q Hsmall). unfold half_away3.
    destruct (Qle_bool 0 q).
    - pose proof (nearest_integer_close (q * (1000 # 1))) as [Hlo Hhi].
      assert (Heq : nearest_integer (q * (1000 # 1)) = n).
      { apply whole_within_one.
        set (N := inject_Z (nearest_integer (q * (1000 # 1)))) in *.
        clearbody N. split; lra. }
      now rewrite Heq.
    - pose proof (nearest_integer_close (- q * (1000 # 1))) as [Hlo Hhi].
      assert (Heq : nearest_integer (- q * (1000 # 1)) = (- n)%Z).
      { apply whole_within_one. rewrite inject_Z_opp.
        set (N := inject_Z (nearest_integer (- q * (1000 # 1)))) in *.
        clearbody N. split; lra. }
      rewrite Heq, inject_Z_opp. field. }
  rewrite (toFixed3_value q), (round_double_comp _ _ Hex).
  now symmetry.
Qed.

(** [autocrop] leaves alone a box that is already rounded: when each of
    the engine's four values is the double of a whole number of
    thousandths, up to 10^12 in magnitude, the fields of the result are
    equal to them. *)
Theorem autocrop_keeps_rounded_box (E : Engine) (h h1 : handle E)
    (raw : BoundingBox) (nx ny nw nh : Z) :
  handle_autocrop E h = (Ok raw, h1) ->
  Z.abs nx <= 10 ^ 15 ->
  Z.abs ny <= 10 ^ 15 ->
  Z.abs nw <= 10 ^ 15 ->
  Z.abs nh <= 10 ^ 15 ->
  (box_x raw == round_double (inject_Z nx / (1000 # 1)))%Q ->
  (box_y raw == round_double (inject_Z ny / (1000 # 1)))%Q ->
  (box_width raw == round_double (inject_Z nw / (1000 # 1)))%Q ->
  (box_height raw == round_double (inject_Z nh / (1000 # 1)))%Q ->
  exists area : BoundingBox,
    autocrop E h = (Ret area, h1, [EAutocrop])
    /\ (box_x area == box_x raw)%Q
    /\ (box_y area == box_y raw)%Q
    /\ (box_width area == box_width raw)%Q
    /\ (box_height area == box_height raw)%Q.
Proof.
  intros Hraw Bx By Bw Bh Hx Hy Hw Hh.
  unfold autocrop, bind, call. rewrite Hraw. cbn [lift ret app].
  eexists. split; [reflexivity |].
  cbn [box_x box_y box_width box_height].
  split; [| split; [| split]].
  - exact (@toFixed3_fixes_rounded (box_x raw) nx Bx Hx).
  - exact (@toFixed3_fixes_rounded (box_y raw) ny By Hy).
  - exact (@toFixed3_fixes_rounded (box_width raw) nw Bw Hw).
  - exact (@toFixed3_fixes_rounded (box_height raw) nh Bh Hh).
Qed.

Lemma autocrop_keeps_rounded_box_witness :
  exists area : BoundingBox,
    autocrop Variants.exact Toy.sound = (Ret area, Toy.sound, [EAutocrop])
    /\ (box_x area == 1 # 8)%Q
    /\ (box_y area == - (5 # 2))%Q
    /\ (box_width area == inject_Z 10)%Q
    /\ (box_height area == round_double (7 # 1000))%Q.
Proof.
  apply (@autocrop_keeps_rounded_box Variants.exact Toy.sound Toy.sound
           (mkBox (1 # 8) (- (5 # 2)) (inject_Z 10) (round_double (7 # 1000)))
           125 (-2500) 10000 7);
    try reflexivity; try (vm_compute; discriminate).
Defined.

(** ** Where the call shapes do agree *)

(** Without a subelement id each helper is [render] with the options
    object [{format, width, height, id}] of its format: the same outcome,
    the same calls on the engine, the same retries. *)
Theorem helpers_agree_without_id (E : Engine) (fuel : nat) (w hh : value)
    (h : handle E) :
  let canonical := fun f =>
    VObj [("format", VStr f); ("width", w); ("height", hh);
          ("id", VUndefined)] in
  renderRaw E fuel w hh VUndefined h = render E fuel [canonical "raw"] h
  /\ renderPNG E fuel w hh VUndefined h = render E fuel [canonical "png"] h
  /\ renderPDF E fuel w hh VUndefined h = render E fuel [canonical "pdf"] h
  /\ renderSVG E fuel w hh VUndefined h = render E fuel [canonical "svg"] h.
Proof.
  cbv zeta. unfold renderRaw, renderPNG, renderPDF, renderSVG.
  repeat split; now apply render_reads_four_keys.
Qed.

(** A positional call with a format already in lower case and the call
    with the corresponding options object return the same result and
    leave the handle in the same state whenever the engine's first answer
    is one that the guard of [render] accepts. *)
Theorem positional_agrees_when_accepted (E : Engine) (fuel : nat)
    (w hh id : value) (s : string) (h h1 : handle E) (img : RenderResult) :
  s <> "" ->
  toLowerCase E s = s ->
  handle_render E w hh (VStr s) id h = (Ok img, h1) ->
  (0 <? handle_getWidth E h1 + handle_getHeight E h1)
  && (payload_length (data img) =? 0) = false ->
  let options :=
    VObj [("format", VStr s); ("width", w); ("height", hh); ("id", id)] in
  result (render E (S fuel) [w; hh; VStr s; id] h) = Ret img
  /\ result (render E (S fuel) [options] h) = Ret img
  /\ final (render E (S fuel) [w; hh; VStr s; id] h) = h1
  /\ final (render E (S fuel) [options] h) = h1.
Proof.
  intros Hne Hlow Hreply Hguard options.
  assert (Hpos : render E (S fuel) [w; hh; VStr s; id] h
                 = (Ret img, h1, [ERender w hh (VStr s) id])).
  { rewrite render_unfold, positional_many. unfold _renderArgs.
    cbn [arg nth truthy call_toLowerCase].
    destruct (String.eqb_spec s ""); [contradiction |].
    cbn [negb]. rewrite Hlow. unfold native_render, call.
    now rewrite Hreply. }
  assert (Hopt : render E (S fuel) [options] h
                 = (Ret img, h1, pass_events options)).
  { rewrite (render_options_step E fuel options h eq_refl). cbv zeta.
    change (or_empty options) with options.
    change (get options "width") with w.
    change (get options "height") with hh.
    change (get options "format") with (VStr s).
    change (get options "id") with id.
    now rewrite Hreply, Hguard. }
  rewrite Hpos, Hopt. now repeat split.
Qed.

Lemma positional_agrees_when_accepted_witness :
  let options :=
    VObj [("format", VStr "png"); ("width", VNum 5); ("height", VNum 5);
          ("id", VStr "#a")] in
  result (render Toy.engine 1 [VNum 5; VNum 5; VStr "png"; VStr "#a"] Toy.sound)
  = Ret (mkRenderResult (Bytes [x23; x61]) "png" 5 5 None)
  /\ result (render Toy.engine 1 [options] Toy.sound)
     = Ret (mkRenderResult (Bytes [x23; x61]) "png" 5 5 None)
  /\ final (render Toy.engine 1 [VNum 5; VNum 5; VStr "png"; VStr "#a"]
              Toy.sound) = Toy.sound
  /\ final (render Toy.engine 1 [options] Toy.sound) = Toy.sound.
Proof.
  apply (@positional_agrees_when_accepted Toy.engine 0 (VNum 5) (VNum 5)
           (VStr "#a") "png" Toy.sound Toy.sound
           (mkRenderResult (Bytes [x23; x61]) "png" 5 5 None)).
  - discriminate.
  - reflexivity.
  - reflexivity.
  - reflexivity.
Defined.
